(** * Interactive slide widgets (assets/js/interactive.js)

    A shallow embedding of the browser-side widget script: the countdown
    timer, the scoreboard, the progress tracker, the reveal / Merkle / bug
    highlighting helpers, the Keccak hash wrapper, the hash comparison, the
    number formatters and [truncateHash].

    The script mutates module-level variables and the page's document, and
    registers interval callbacks with the browser.  All of this is modelled
    by explicit state passing over a record [State]; the browser's table of
    live intervals is part of that record, and an interval firing is an
    input of the model just like a call of an exported function.

    Conventions.
    - The numbers the script counts with (seconds, scores, line numbers) are
      whole numbers, modelled in [Z]; where the script adds to a score or
      decrements the seconds, the result is rounded as the addition of
      doubles rounds it ([JsNumber]).  The two places where the scoreboard
      animation leaves the whole numbers are parameters ([NumberOps]).
    - An element is referred to by its position in the document.
    - The live hash demo and the wallet demo, the clipboard helper, the
      click toggles of the answers and the diagram bootstrap are left out:
      they write the text, the style or the classes of elements and talk to
      external libraries, and touch neither the script's variables nor the
      interval table.  What they do to the page is covered by the input
      [Rewrite]. *)

From Stdlib Require Import ZArith String Ascii DecimalString.
From Stdlib Require DecimalPos.
From stdpp Require Import gmap strings list.

Local Open Scope Z_scope.
Set Warnings "-register-all".

(** ** JavaScript strings

    Strings are sequences of code units; the strings the script formats are
    ASCII, so a code unit is an [ascii]. *)

Module JsString.

Fixpoint take (n : nat) (s : string) : string :=
  match n, s with
  | S n', String c s' => String c (take n' s')
  | _, _ => EmptyString
  end.

Fixpoint drop (n : nat) (s : string) : string :=
  match n, s with
  | S n', String _ s' => drop n' s'
  | _, _ => s
  end.

Definition len (s : string) : Z := Z.of_nat (String.length s).

(** An index argument of [substring] is clamped into [0, length]. *)
Definition clamp (s : string) (i : Z) : Z := Z.max 0 (Z.min i (len s)).

(** [s.substring(a, b)]: both indices are clamped and swapped when
    [a > b]. *)
Definition substring (s : string) (a b : Z) : string :=
  let lo := Z.min (clamp s a) (clamp s b) in
  let hi := Z.max (clamp s a) (clamp s b) in
  take (Z.to_nat (hi - lo)) (drop (Z.to_nat lo) s).

(** [s.substring(a)]: the end index defaults to the length. *)
Definition substring_from (s : string) (a : Z) : string :=
  substring s a (len s).

Fixpoint replicate_char (n : nat) (c : ascii) : string :=
  match n with
  | O => EmptyString
  | S n' => String c (replicate_char n' c)
  end.

(** [s.padStart(target, c)] for a one-character pad string. *)
Definition padStart (target : nat) (c : ascii) (s : string) : string :=
  if (target <=? String.length s)%nat then s
  else replicate_char (target - String.length s) c +:+ s.

(** [n.toString()] of an integral number: decimal digits, a leading
    minus sign for negative values.  (So are the whole numbers below 10^21
    in size printed; larger ones get an exponent and are outside of the
    model.) *)
Definition toString (n : Z) : string :=
  NilZero.string_of_int (Z.to_int n).

(** The character of a decimal digit. *)
Definition digit (d : Z) : ascii :=
  ascii_of_nat (48 + Z.to_nat d).

End JsString.

(** ** JavaScript numbers

    The numbers the script computes with are IEEE 754 doubles.  The ones it
    counts with are whole numbers, and a whole number is a double when it has
    at most 53 significant bits: every whole number up to 2^53 in absolute
    value is one, and beyond that only every second, fourth, ... number.
    The result of an addition is the exact sum rounded to the nearest
    double, to the one with the even significand when two are equally near.
    The model has no infinities: a result of 2^1024 or more in absolute
    value is outside of it ([finite]). *)

Module JsNumber.

(** The double nearest to the whole number [x]. *)
Definition round (x : Z) : Z :=
  let a := Z.abs x in
  if a <? 2 ^ 53 then x
  else
    (* [a] has more than 53 bits: doubles of this size are [unit] apart *)
    let unit := 2 ^ (Z.log2 a - 52) in
    let q := a / unit in
    let r := a mod unit in
    let up :=
      if 2 * r <? unit then false
      else if unit <? 2 * r then true
      else Z.odd q in
    Z.sgn x * ((if up then q + 1 else q) * unit).

(** [x + y] *)
Definition add (x y : Z) : Z := round (x + y).

(** The size of a double that is not an infinity. *)
Definition finite (x : Z) : Prop := Z.abs x < 2 ^ 1024.

(** The whole numbers that are doubles. *)
Definition representable (x : Z) : Prop := round x = x ∧ finite x.

(** The whole numbers up to 2^53 in absolute value: each is a double, and
    a sum in this range is exact. *)
Definition safe (x : Z) : Prop := Z.abs x ≤ 2 ^ 53.

End JsNumber.

(** ** The document

    The page is the list of its elements in document order; [el_depth] is
    the nesting depth of an element, so that the descendants of an element
    are the elements that follow it for as long as their depth is larger.
    An element reference is its position in that list: the script never
    creates, moves or removes an element.  [textContent] is modelled for
    elements that hold text only. *)

Record Element := mkElement {
  el_id : string;               (* the id attribute; empty when absent *)
  el_depth : nat;
  classList : list string;
  textContent : string;
  style_color : string;
  style_animation : string
}.

Module Dom.

Definition with_classList (f : list string → list string) (e : Element) :=
  mkElement (el_id e) (el_depth e) (f (classList e)) (textContent e)
            (style_color e) (style_animation e).

Definition with_textContent (s : string) (e : Element) :=
  mkElement (el_id e) (el_depth e) (classList e) s
            (style_color e) (style_animation e).

Definition with_color (s : string) (e : Element) :=
  mkElement (el_id e) (el_depth e) (classList e) (textContent e)
            s (style_animation e).

Definition with_animation (s : string) (e : Element) :=
  mkElement (el_id e) (el_depth e) (classList e) (textContent e)
            (style_color e) s.

(** [classList.contains], [classList.add], [classList.remove]. *)
Definition contains (c : string) (cl : list string) : bool :=
  bool_decide (c ∈ cl).

Definition add (c : string) (cl : list string) : list string :=
  if contains c cl then cl else cl ++ [c].

Definition remove (c : string) (cl : list string) : list string :=
  filter (λ x, x ≠ c) cl.

Definition has_class (c : string) (e : Element) : bool :=
  contains c (classList e).

(** [document.getElementById(id)]: the first element, in document order,
    whose id attribute is [id]; the empty id matches nothing. *)
Definition getElementById (id : string) (doc : list Element) : option nat :=
  if bool_decide (id = EmptyString) then None
  else fst <$> list_find (λ e, el_id e = id) doc.

(** Positions of the elements of [doc], from position [i] on, that carry
    all the classes [cs]. *)
Fixpoint select_from (i : nat) (cs : list string) (doc : list Element)
  : list nat :=
  match doc with
  | [] => []
  | e :: doc' =>
      if forallb (λ c, has_class c e) cs
      then i :: select_from (S i) cs doc'
      else select_from (S i) cs doc'
  end.

(** [document.querySelectorAll('.c1.c2...')]. *)
Definition querySelectorAll (cs : list string) (doc : list Element)
  : list nat :=
  select_from 0 cs doc.

(** The run of elements below depth [d] at the head of [doc]. *)
Fixpoint subtree_length (d : nat) (doc : list Element) : nat :=
  match doc with
  | [] => O
  | e :: doc' =>
      if (d <? el_depth e)%nat then S (subtree_length d doc') else O
  end.

(** [el.querySelectorAll('.c')]: the descendants of the element at
    position [i] that carry the class, in document order. *)
Definition querySelectorAll_in (i : nat) (c : string) (doc : list Element)
  : list nat :=
  match doc !! i with
  | None => []
  | Some e =>
      let below := drop (S i) doc in
      select_from (S i) [c]
        (firstn (subtree_length (el_depth e) below) below)
  end.

End Dom.

(** ** Calls, closures and the state

    [Call] lists the exported functions that run synchronously on the page
    state.  A completion callback handed to [startTimer] is host-page code:
    it is modelled by a name, recorded when it is invoked, and by the calls
    it makes back into the script. *)

Inductive Call :=
  | StartTimer (displayId : string) (seconds : Z)
               (onComplete : option (nat * list Call))
  | StopTimer
  | ResetTimer (displayId : string) (seconds : Z)
  | RevealAnswer (elementId : string)
  | HideAnswer (elementId : string)
  | UpdateScore (team : string) (points : Z)
  | SetScore (team : string) (points : Z)
  | ResetScores
  | MarkComplete (itemId : string)
  | SetCurrent (itemId : string)
  | AnimateMerkleTree (containerId : string)
  | ResetMerkleAnimation (containerId : string)
  | HighlightBug (codeBlockId : string) (lineNumber : Z)
  | ClearBugHighlights (codeBlockId : string).

Definition Callback : Type := nat * list Call.

(** The two functions the script passes to [setInterval], with the
    variables each one captures. *)
Inductive Closure :=
  | TimerTick (display : nat) (onComplete : option Callback)
  | AnimateStep (element : nat) (currentValue targetValue : Z) (step : Z).

(** What an observer of the page can see happen, in order. *)
Inductive Event :=
  | EvText (element : nat) (text : string)    (* a write of textContent *)
  | EvInvoke (callback : nat)                 (* a completion callback runs *)
  | EvConsoleError (message : string).        (* console.error *)

Record State := mkState {
  document : list Element;
  intervals : gmap positive Closure;   (* the browser's live intervals *)
  next_handle : positive;              (* the next interval id it hands out *)
  trace : list Event;
  timerInterval : option positive;     (* let timerInterval = null *)
  timerSeconds : Z;                    (* let timerSeconds = 0 *)
  scores : gmap string Z;              (* let scores = { hacker, security } *)
  merkleAnimationStep : nat            (* let merkleAnimationStep = 0 *)
}.

(** The state of a freshly loaded page with document [doc]. *)
Definition init (doc : list Element) : State :=
  mkState doc ∅ 1%positive [] None 0
          (<["security" := 0]> (<["hacker" := 0]> ∅)) O.

Definition set_document (d : list Element) (st : State) : State :=
  mkState d (intervals st) (next_handle st) (trace st) (timerInterval st)
          (timerSeconds st) (scores st) (merkleAnimationStep st).

Definition set_intervals (m : gmap positive Closure) (st : State) : State :=
  mkState (document st) m (next_handle st) (trace st) (timerInterval st)
          (timerSeconds st) (scores st) (merkleAnimationStep st).

Definition set_next_handle (h : positive) (st : State) : State :=
  mkState (document st) (intervals st) h (trace st) (timerInterval st)
          (timerSeconds st) (scores st) (merkleAnimationStep st).

Definition log (e : Event) (st : State) : State :=
  mkState (document st) (intervals st) (next_handle st) (trace st ++ [e])
          (timerInterval st) (timerSeconds st) (scores st)
          (merkleAnimationStep st).

Definition set_timerInterval (h : option positive) (st : State) : State :=
  mkState (document st) (intervals st) (next_handle st) (trace st) h
          (timerSeconds st) (scores st) (merkleAnimationStep st).

Definition set_timerSeconds (n : Z) (st : State) : State :=
  mkState (document st) (intervals st) (next_handle st) (trace st)
          (timerInterval st) n (scores st) (merkleAnimationStep st).

Definition set_scores (s : gmap string Z) (st : State) : State :=
  mkState (document st) (intervals st) (next_handle st) (trace st)
          (timerInterval st) (timerSeconds st) s (merkleAnimationStep st).

Definition set_merkleAnimationStep (n : nat) (st : State) : State :=
  mkState (document st) (intervals st) (next_handle st) (trace st)
          (timerInterval st) (timerSeconds st) (scores st) n.

(** *** Browser primitives *)

(** [setInterval(f, ms)]: registers [f] under a fresh positive id. *)
Definition setInterval (f : Closure) (st : State) : positive * State :=
  let h := next_handle st in
  (h, set_next_handle (Pos.succ h) (set_intervals (<[h := f]> (intervals st)) st)).

(** [clearInterval(h)]: a no-op for [null] and for an id that is not live. *)
Definition clearInterval (h : option positive) (st : State) : State :=
  match h with
  | Some h => set_intervals (delete h (intervals st)) st
  | None => st
  end.

(** Element accessors: [el.textContent = s], [el.style.color = s],
    [el.style.animation = s], and edits of [el.classList].  The browser's
    [textContent] setter replaces the children of the element by one text
    node; [set_textContent] writes the text and keeps the list of elements,
    which is what the browser does to an element without child elements:
    the displays of the countdown, of the scores and of the hashes are taken
    to be such elements. *)
Definition set_textContent (el : nat) (s : string) (st : State) : State :=
  log (EvText el s)
      (set_document (alter (Dom.with_textContent s) el (document st)) st).

Definition set_color (el : nat) (s : string) (st : State) : State :=
  set_document (alter (Dom.with_color s) el (document st)) st.

Definition set_animation (el : nat) (s : string) (st : State) : State :=
  set_document (alter (Dom.with_animation s) el (document st)) st.

Definition edit_classList (el : nat) (f : list string → list string)
    (st : State) : State :=
  set_document (alter (Dom.with_classList f) el (document st)) st.

Definition text_of (el : nat) (st : State) : string :=
  from_option textContent EmptyString (document st !! el).

Definition color_of (el : nat) (st : State) : string :=
  from_option style_color EmptyString (document st !! el).

Definition animation_of (el : nat) (st : State) : string :=
  from_option style_animation EmptyString (document st !! el).

Definition classes_of (el : nat) (st : State) : list string :=
  from_option classList [] (document st !! el).

(** ** Countdown timer *)

Definition warning_color : string := "#f59e0b".
Definition danger_color : string := "#ef4444".
Definition times_up : string := "TIME'S UP!".
Definition pulse : string := "pulse 0.5s infinite".

(** The text [updateTimerDisplay] renders for [n] remaining seconds:
    [Math.floor(n / 60)], a colon, and [n % 60] (the remainder takes the sign
    of [n]) padded to two characters. *)
Definition timer_text (n : Z) : string :=
  let minutes := n / 60 in
  let seconds := Z.rem n 60 in
  JsString.toString minutes +:+ ":"
    +:+ JsString.padStart 2 "0" (JsString.toString seconds).

Definition updateTimerDisplay (display : nat) (st : State) : State :=
  set_textContent display (timer_text (timerSeconds st)) st.

Definition startTimer (displayId : string) (seconds : Z)
    (onComplete : option Callback) (st : State) : State :=
  match Dom.getElementById displayId (document st) with
  | None => st
  | Some display =>
      let st :=
        match timerInterval st with     (* if (timerInterval): an id is truthy *)
        | Some h => clearInterval (Some h) st
        | None => st
        end in
      let st := set_timerSeconds seconds st in
      let st := updateTimerDisplay display st in
      let (h, st) := setInterval (TimerTick display onComplete) st in
      set_timerInterval (Some h) st
  end.

Definition stopTimer (st : State) : State :=
  match timerInterval st with
  | Some h => set_timerInterval None (clearInterval (Some h) st)
  | None => st
  end.

Definition resetTimer (displayId : string) (seconds : Z) (st : State)
  : State :=
  let st := stopTimer st in
  match Dom.getElementById displayId (document st) with
  | Some display =>
      let st := set_timerSeconds seconds st in
      let st := updateTimerDisplay display st in
      let st := set_color display EmptyString st in
      set_animation display EmptyString st
  | None => st
  end.

(** ** Reveal answers *)

Definition revealAnswer (elementId : string) (st : State) : State :=
  match Dom.getElementById elementId (document st) with
  | Some element => edit_classList element (Dom.add "revealed") st
  | None => st
  end.

Definition hideAnswer (elementId : string) (st : State) : State :=
  match Dom.getElementById elementId (document st) with
  | Some element => edit_classList element (Dom.remove "revealed") st
  | None => st
  end.

(** ** Scoreboard *)

(** The two pieces of JavaScript number semantics that the score animation
    relies on and that are not modelled here: reading a number off a text,
    and the rounded floating-point interpolation between two values. *)
Class NumberOps := {
  (* parseInt(text) || 0 *)
  parseInt_or_0 : string → Z;
  (* Math.round(currentValue + ((targetValue - currentValue) / 20) * step) *)
  interpolate : Z → Z → Z → Z
}.

Section Widgets.
Context `{NumberOps}.

Definition animation_steps : Z := 20.

Definition animateNumber (element : nat) (targetValue : Z) (st : State)
  : State :=
  let currentValue := parseInt_or_0 (text_of element st) in
  snd (setInterval (AnimateStep element currentValue targetValue 0) st).

(** One run of the interval callback of [animateNumber], registered as
    [self]; the callback increments its captured [step]. *)
Definition animateTick (self : positive) (element : nat)
    (currentValue targetValue step : Z) (st : State) : State :=
  let step := step + 1 in
  let st :=
    set_intervals
      (<[self := AnimateStep element currentValue targetValue step]>
         (intervals st)) st in
  let newValue := interpolate currentValue targetValue step in
  let st := set_textContent element (JsString.toString newValue) st in
  if animation_steps <=? step then
    let st := clearInterval (Some self) st in
    set_textContent element (JsString.toString targetValue) st
  else st.

Definition score_of (team : string) (st : State) : Z :=
  default 0 (scores st !! team).

Definition updateScoreDisplay (st : State) : State :=
  let hackerDisplay := Dom.getElementById "score-hacker" (document st) in
  let securityDisplay := Dom.getElementById "score-security" (document st) in
  let st :=
    match hackerDisplay with
    | Some el => animateNumber el (score_of "hacker" st) st
    | None => st
    end in
  match securityDisplay with
  | Some el => animateNumber el (score_of "security" st) st
  | None => st
  end.

(** [scores.hasOwnProperty(team)] *)
Definition hasOwnProperty (team : string) (st : State) : bool :=
  bool_decide (is_Some (scores st !! team)).

Definition updateScore (team : string) (points : Z) (st : State) : State :=
  if hasOwnProperty team st then
    (* scores[team] += points *)
    let st :=
      set_scores
        (<[team := JsNumber.add (score_of team st) points]> (scores st)) st in
    updateScoreDisplay st
  else st.

Definition setScore (team : string) (points : Z) (st : State) : State :=
  if hasOwnProperty team st then
    let st := set_scores (<[team := points]> (scores st)) st in
    updateScoreDisplay st
  else st.

Definition resetScores (st : State) : State :=
  let st := set_scores (<["hacker" := 0]> (scores st)) st in
  let st := set_scores (<["security" := 0]> (scores st)) st in
  updateScoreDisplay st.

(** ** Progress tracker *)

Definition markComplete (itemId : string) (st : State) : State :=
  match Dom.getElementById itemId (document st) with
  | Some item =>
      let st := edit_classList item (Dom.remove "current") st in
      edit_classList item (Dom.add "completed") st
  | None => st
  end.

(** [nodes.forEach(el => el.classList.remove(c))] *)
Definition remove_class_each (c : string) (nodes : list nat) (st : State)
  : State :=
  foldl (λ st el, edit_classList el (Dom.remove c) st) st nodes.

Definition setCurrent (itemId : string) (st : State) : State :=
  let st :=
    remove_class_each "current"
      (Dom.querySelectorAll ["progress-item"; "current"] (document st)) st in
  match Dom.getElementById itemId (document st) with
  | Some item =>
      if Dom.contains "completed" (classes_of item st) then st
      else edit_classList item (Dom.add "current") st
  | None => st
  end.

(** ** Merkle tree animation *)

Definition animateMerkleTree (containerId : string) (st : State) : State :=
  match Dom.getElementById containerId (document st) with
  | None => st
  | Some container =>
      let steps := Dom.querySelectorAll_in container "merkle-step" (document st) in
      match steps !! merkleAnimationStep st with
      | Some el =>          (* merkleAnimationStep < steps.length *)
          let st := edit_classList el (Dom.add "visible") st in
          set_merkleAnimationStep (S (merkleAnimationStep st)) st
      | None => st
      end
  end.

Definition resetMerkleAnimation (containerId : string) (st : State) : State :=
  match Dom.getElementById containerId (document st) with
  | None => st
  | Some container =>
      let st := set_merkleAnimationStep O st in
      remove_class_each "visible"
        (Dom.querySelectorAll_in container "merkle-step" (document st)) st
  end.

(** ** Bug highlighting *)

Definition highlightBug (codeBlockId : string) (lineNumber : Z) (st : State)
  : State :=
  match Dom.getElementById codeBlockId (document st) with
  | None => st
  | Some codeBlock =>
      let lines := Dom.querySelectorAll_in codeBlock "code-line" (document st) in
      (* lines[lineNumber - 1] is undefined outside 0 .. length - 1 *)
      if lineNumber - 1 <? 0 then st
      else
        match lines !! Z.to_nat (lineNumber - 1) with
        | Some el => edit_classList el (Dom.add "bug-highlight") st
        | None => st
        end
  end.

Definition clearBugHighlights (codeBlockId : string) (st : State) : State :=
  match Dom.getElementById codeBlockId (document st) with
  | None => st
  | Some codeBlock =>
      remove_class_each "bug-highlight"
        (Dom.querySelectorAll_in codeBlock "bug-highlight" (document st)) st
  end.

(** ** Running the page *)

Definition exec (c : Call) (st : State) : State :=
  match c with
  | StartTimer displayId seconds onComplete =>
      startTimer displayId seconds onComplete st
  | StopTimer => stopTimer st
  | ResetTimer displayId seconds => resetTimer displayId seconds st
  | RevealAnswer elementId => revealAnswer elementId st
  | HideAnswer elementId => hideAnswer elementId st
  | UpdateScore team points => updateScore team points st
  | SetScore team points => setScore team points st
  | ResetScores => resetScores st
  | MarkComplete itemId => markComplete itemId st
  | SetCurrent itemId => setCurrent itemId st
  | AnimateMerkleTree containerId => animateMerkleTree containerId st
  | ResetMerkleAnimation containerId => resetMerkleAnimation containerId st
  | HighlightBug codeBlockId lineNumber =>
      highlightBug codeBlockId lineNumber st
  | ClearBugHighlights codeBlockId => clearBugHighlights codeBlockId st
  end.

(** [if (typeof onComplete === 'function') onComplete()] *)
Definition invoke (onComplete : option Callback) (st : State) : State :=
  match onComplete with
  | Some (name, body) => foldl (λ st c, exec c st) (log (EvInvoke name) st) body
  | None => st
  end.

(** One run of the interval callback of [startTimer]. *)
Definition timerTick (display : nat) (onComplete : option Callback)
    (st : State) : State :=
  (* timerSeconds-- *)
  let st := set_timerSeconds (JsNumber.add (timerSeconds st) (-1)) st in
  let st := updateTimerDisplay display st in
  let st :=
    if timerSeconds st <=? 0 then
      let st := clearInterval (timerInterval st) st in
      let st := set_timerInterval None st in
      let st := set_textContent display times_up st in
      let st := set_animation display pulse st in
      invoke onComplete st
    else st in
  let st :=
    if timerSeconds st =? 30 then set_color display warning_color st
    else st in
  if timerSeconds st <=? 10 then set_color display danger_color st
  else st.

(** The browser runs the callback registered under [h], if [h] is live. *)
Definition fire (h : positive) (st : State) : State :=
  match intervals st !! h with
  | Some (TimerTick display onComplete) => timerTick display onComplete st
  | Some (AnimateStep element currentValue targetValue step) =>
      animateTick h element currentValue targetValue step st
  | None => st
  end.

(** What can happen to the page: the host calls an exported function, a
    live interval fires, or something outside this model (the host page, the
    slideshow framework, one of the widgets left out) rewrites an element. *)
Inductive Input :=
  | Invoke (c : Call)
  | Fire (h : positive)
  | Rewrite (el : nat) (e : Element).

Definition step (i : Input) (st : State) : State :=
  match i with
  | Invoke c => exec c st
  | Fire h => fire h st
  | Rewrite el e => set_document (<[el := e]> (document st)) st
  end.

Definition run (inputs : list Input) (st : State) : State :=
  foldl (λ st i, step i st) st inputs.

(** [n] consecutive firings of the interval [h]. *)
Definition ticks (n : nat) (h : positive) (st : State) : State :=
  Nat.iter n (fire h) st.

End Widgets.

(** ** Hash demo *)

(** How a call into the external library ends. *)
Inductive Completion (A : Type) :=
  | Returns (value : A)
  | Throws (error : string).
Arguments Returns {A} value.
Arguments Throws {A} error.

(** The part of ethers.js that [computeKeccakHash] uses. *)
Record Ethers := {
  toUtf8Bytes : string → Completion (list Byte.byte);
  keccak256 : list Byte.byte → Completion string
}.

Definition not_loaded_message : string := "Error: ethers.js not loaded".
Definition computing_message : string := "Error computing hash".

(** [ethers] is [None] when [typeof ethers === 'undefined'].  The result is
    how the body of the async function ends, that is, whether its promise
    is fulfilled with a string or rejected. *)
Definition computeKeccakHash (ethers : option Ethers) (input : string)
    (st : State) : Completion string * State :=
  match ethers with
  | None =>
      (Returns not_loaded_message, log (EvConsoleError "ethers.js not loaded") st)
  | Some lib =>
      let attempt :=
        match toUtf8Bytes lib input with
        | Returns bytes => keccak256 lib bytes
        | Throws error => Throws error
        end in
      match attempt with
      | Returns hash => (Returns hash, st)
      | Throws error =>
          (Returns computing_message,
           log (EvConsoleError ("Hash computation error: " +:+ error)) st)
      end
  end.

(** ** Utility functions *)

(** [truncateHash(hash, startChars = 6, endChars = 4)]; an omitted argument
    is [None]. *)
Definition truncateHash (hash : string) (startChars endChars : option Z)
  : string :=
  let startChars := default 6 startChars in
  let endChars := default 4 endChars in
  if JsString.len hash <=? startChars + endChars + 3 then hash
  else
    JsString.substring hash 0 startChars +:+ "..."
      +:+ JsString.substring_from hash (JsString.len hash - endChars).

(** ** Reveal all answers *)

(** [nodes.forEach(el => el.classList.add(c))] *)
Definition add_class_each (c : string) (nodes : list nat) (st : State)
  : State :=
  foldl (λ st el, edit_classList el (Dom.add c) st) st nodes.

(** [Reveal.getCurrentSlide()] belongs to the slideshow framework; what it
    returns, a slide or nothing, is the argument [currentSlide]. *)
Definition revealAllAnswers (currentSlide : option nat) (st : State) : State :=
  match currentSlide with
  | Some slide =>
      add_class_each "revealed"
        (Dom.querySelectorAll_in slide "reveal-answer" (document st)) st
  | None => st
  end.

(** ** Hash comparison *)

Definition neutral_color : string := "#4a9ea4".
Definition first_differs_color : string := "#ef4444".
Definition second_differs_color : string := "#10b981".

Definition highlightHashDifferences (el1 el2 : nat) (hash1 hash2 : string)
    (st : State) : State :=
  if bool_decide (hash1 ≠ hash2) then
    let st := set_color el1 first_differs_color st in
    set_color el2 second_differs_color st
  else
    let st := set_color el1 neutral_color st in
    set_color el2 neutral_color st.

(** The function [updateHashes] inside [initHashComparison], for two inputs
    that hold [value1] and [value2] ([input.value || ''] of a text is the
    text).  An [await] of a rejected promise ends the function there. *)
Definition updateHashes (ethers : option Ethers) (value1 value2 : string)
    (output1 output2 : nat) (st : State) : State :=
  match computeKeccakHash ethers value1 st with
  | (Throws _, st) => st
  | (Returns hash1, st) =>
      match computeKeccakHash ethers value2 st with
      | (Throws _, st) => st
      | (Returns hash2, st) =>
          let st := set_textContent output1 hash1 st in
          let st := set_textContent output2 hash2 st in
          highlightHashDifferences output1 output2 hash1 hash2 st
      end
  end.

(** [initHashComparison] up to its first run of [updateHashes]; [value]
    gives what an input element holds.  The two listeners it registers run
    [updateHashes] again, with the values held then, on every input event. *)
Definition initHashComparison (ethers : option Ethers)
    (input1Id input2Id output1Id output2Id : string) (value : nat → string)
    (st : State) : State :=
  match Dom.getElementById input1Id (document st),
        Dom.getElementById input2Id (document st),
        Dom.getElementById output1Id (document st),
        Dom.getElementById output2Id (document st) with
  | Some input1, Some input2, Some output1, Some output2 =>
      updateHashes ethers (value input1) (value input2) output1 output2 st
  | _, _, _, _ => st
  end.

(** ** Number formatting *)

Module Regex.

(** [\d] and [\w] *)
Definition is_digit (c : ascii) : bool :=
  let n := nat_of_ascii c in (48 <=? n)%nat && (n <=? 57)%nat.

Definition is_word (c : ascii) : bool :=
  let n := nat_of_ascii c in
  is_digit c
  || ((65 <=? n)%nat && (n <=? 90)%nat)
  || ((97 <=? n)%nat && (n <=? 122)%nat)
  || (n =? 95)%nat.

Definition starts_with_digit (s : string) : bool :=
  match s with
  | String c _ => is_digit c
  | EmptyString => false
  end.

(** [(\d{3})+(?!\d)] matches at the head of [s]: three digits, and then
    either no digit or the same again. *)
Fixpoint three_digit_groups (s : string) : bool :=
  match s with
  | String a (String b (String c rest)) =>
      is_digit a && is_digit b && is_digit c
      && (negb (starts_with_digit rest) || three_digit_groups rest)
  | _ => false
  end.

(** [\B] holds between [prev] and the head of [s]: both are word
    characters, or neither is (the ends of the text are not). *)
Definition non_boundary (prev : option ascii) (s : string) : bool :=
  Bool.eqb (from_option is_word false prev)
           (match s with String c _ => is_word c | EmptyString => false end).

(** [s.replace(/\B(?=(\d{3})+(?!\d))/g, ",")], from a position that
    follows [prev]: the pattern consumes nothing, so it is tried at every
    position, and a comma goes in wherever it matches. *)
Fixpoint insert_commas (prev : option ascii) (s : string) : string :=
  let here :=
    if non_boundary prev s && three_digit_groups s then "," else EmptyString in
  match s with
  | EmptyString => here
  | String c s' => here +:+ String c (insert_commas (Some c) s')
  end.

End Regex.

Definition formatNumber (num : Z) : string :=
  Regex.insert_commas None (JsString.toString num).

Definition formatCurrency (amount : Z) : string :=
  "$" +:+ formatNumber amount.

(** ** Vocabulary of the statements *)

(** A completion callback that makes no call back into the script. *)
Definition opaque (name : nat) : Callback := (name, []).

(** How many times the callback [name] has run. *)
Definition is_invoke (name : nat) (e : Event) : bool :=
  match e with
  | EvInvoke k => (k =? name)%nat
  | _ => false
  end.

Definition invocations (name : nat) (tr : list Event) : nat :=
  length (filter (λ e, is_invoke name e = true) tr).

Definition is_timer (f : Closure) : bool :=
  match f with
  | TimerTick _ _ => true
  | AnimateStep _ _ _ _ => false
  end.

(** The ids of the live intervals that run the countdown callback. *)
Definition live_timers (st : State) : list positive :=
  (map_to_list (filter (λ kv, is_timer kv.2 = true) (intervals st))).*1.

(** Every [startTimer] in the call, and in the callbacks handed over with
    it, is given at least [lo] seconds, and every [resetTimer] a
    non-negative number. *)
Fixpoint seconds_from (lo : Z) (c : Call) : bool :=
  match c with
  | StartTimer _ seconds onComplete =>
      (lo <=? seconds)
      && match onComplete with
         | Some (_, body) => forallb (seconds_from lo) body
         | None => true
         end
  | ResetTimer _ seconds => 0 <=? seconds
  | _ => true
  end.

Definition input_seconds_from (lo : Z) (i : Input) : bool :=
  match i with
  | Invoke c => seconds_from lo c
  | Fire _ => true
  | Rewrite _ _ => true
  end.

Definition known_team (team : string) : Prop :=
  team = "hacker" ∨ team = "security".


(** [st'] differs from [st] at most in the document, the trace and the
    Merkle counter. *)
Definition same_core (st st' : State) : Prop :=
  intervals st' = intervals st
  ∧ timerInterval st' = timerInterval st
  ∧ timerSeconds st' = timerSeconds st
  ∧ scores st' = scores st
  ∧ next_handle st' = next_handle st.

(** The completion callback only starts countdowns of at least one second. *)
Definition body_ok (cb : option Callback) : Prop :=
  match cb with
  | Some (_, body) => forallb (seconds_from 1) body = true
  | None => True
  end.

(** The invariant of the page state: in every state the page can reach, the score object has exactly the two
    team keys, and a live countdown interval is the one [timerInterval]
    names.  When, in addition, every [startTimer] is given a positive number
    of seconds and every [resetTimer] a non-negative one ([strict]), the
    remaining seconds are never negative, and at least one while a countdown
    interval is live. *)
Definition Inv (strict : bool) (st : State) : Prop :=
  (∀ team, is_Some (scores st !! team) ↔ known_team team)
  ∧ (∀ h d cb, intervals st !! h = Some (TimerTick d cb) →
       timerInterval st = Some h)
  ∧ (strict = true →
       0 ≤ timerSeconds st
       ∧ ∀ h d cb, intervals st !! h = Some (TimerTick d cb) →
           1 ≤ timerSeconds st ∧ body_ok cb).

Definition admissible (strict : bool) (c : Call) : Prop :=
  strict = true → seconds_from 1 c = true.

#[local] Instance known_team_dec team : Decision (known_team team).
Proof. unfold known_team. apply _. Defined.

(** Only the countdown is used: every call is [startTimer], [stopTimer] or
    [resetTimer], also inside completion callbacks. *)
Fixpoint timer_call (c : Call) : bool :=
  match c with
  | StartTimer _ _ onComplete =>
      match onComplete with
      | Some (_, body) => forallb timer_call body
      | None => true
      end
  | StopTimer => true
  | ResetTimer _ _ => true
  | _ => false
  end.

Definition timer_input (i : Input) : bool :=
  match i with
  | Invoke c => timer_call c
  | Fire _ => true
  | Rewrite _ _ => true
  end.

(** Every live interval runs the countdown callback, with a completion
    callback that only uses the countdown. *)
Definition timers_only (st : State) : Prop :=
  ∀ h f, intervals st !! h = Some f →
    ∃ d cb, f = TimerTick d cb
            ∧ from_option (λ cb, forallb timer_call cb.2 = true) True cb.

(** The browser hands out interval ids it has not handed out before: every
    live id is below the next one. *)
Definition handles_fresh (st : State) : Prop :=
  ∀ h, is_Some (intervals st !! h) → (h < next_handle st)%positive.









(** The class list of an element once [setCurrent] has cleared the current
    progress items. *)
Definition cleared (classes : list string) : list string :=
  if Dom.contains "progress-item" classes && Dom.contains "current" classes
  then Dom.remove "current" classes
  else classes.

(** The positions of the descendants of the element at position [i]. *)
Definition descendants (i : nat) (doc : list Element) : list nat :=
  match doc !! i with
  | None => []
  | Some e =>
      seq (S i) (Dom.subtree_length (el_depth e) (drop (S i) doc))
  end.

(** [n] consecutive calls of [f]. *)
Definition repeated (n : nat) (f : State → State) (st : State) : State :=
  Nat.iter n f st.

(** An input that runs code of the script: a call or an interval firing. *)
Definition scripted (i : Input) : bool :=
  match i with
  | Invoke _ | Fire _ => true
  | Rewrite _ _ => false
  end.

(** No element loses the class "completed" from [st] to [st']. *)
Definition keeps_completed (st st' : State) : Prop :=
  ∀ el, "completed" ∈ classes_of el st → "completed" ∈ classes_of el st'.

(** A text of decimal digits only. *)
Fixpoint all_digits (s : string) : bool :=
  match s with
  | EmptyString => true
  | String c s' => Regex.is_digit c && all_digits s'
  end.

(** A number below one thousand as three decimal digits. *)
Definition three_digits (r : Z) : string :=
  String (JsString.digit (r / 100))
    (String (JsString.digit (r / 10 mod 10))
       (String (JsString.digit (r mod 10)) EmptyString)).

(** Two documents with the same tree in which the same elements carry the
    class [c]. *)
Definition same_shape (c : string) (doc doc' : list Element) : Prop :=
  Forall2 (λ e e', el_depth e = el_depth e'
                   ∧ Dom.has_class c e = Dom.has_class c e') doc doc'.

(** An edit of the class list of the element named [id], if there is one. *)
Definition edit_by_id (id : string) (f : list string → list string)
    (st : State) : State :=
  match Dom.getElementById id (document st) with
  | Some el => edit_classList el f st
  | None => st
  end.


(** The handle the script keeps in [timerInterval] names a live countdown
    interval. *)
Definition handle_live (st : State) : Prop :=
  ∀ h, timerInterval st = Some h →
    ∃ d cb, intervals st !! h = Some (TimerTick d cb).

(** Every score animation registered in [st] is registered in [st'], at the
    same step. *)
Definition keeps_animations (st st' : State) : Prop :=
  ∀ h el c t k, intervals st !! h = Some (AnimateStep el c t k) →
    intervals st' !! h = Some (AnimateStep el c t k).

(** ** Sample pages *)

(** Integer arithmetic standing in for the number semantics, to evaluate the
    model on examples: digits are read in base ten, and the interpolation is
    rounded exactly. *)
Definition digit_value (c : ascii) : option Z :=
  let n := Z.of_nat (nat_of_ascii c) in
  if (48 <=? n) && (n <=? 57) then Some (n - 48) else None.

Fixpoint read_digits (acc : Z) (s : string) : Z :=
  match s with
  | EmptyString => acc
  | String c s' =>
      match digit_value c with
      | Some d => read_digits (10 * acc + d) s'
      | None => acc
      end
  end.

Definition sample_ops : NumberOps := {|
  parseInt_or_0 := read_digits 0;
  interpolate := λ currentValue targetValue step,
    (20 * currentValue + (targetValue - currentValue) * step + 10) / 20
|}.

Definition plain (id : string) (classes : list string) : Element :=
  mkElement id O classes EmptyString EmptyString EmptyString.

(** A slide with a timer display and two progress items. *)
Definition sample_page : list Element :=
  [ plain "timer" [];
    plain "intro" ["progress-item"; "current"];
    plain "setup" ["progress-item"];
    plain "note" ["current"] ].

(** A countdown that runs out, a reset to zero, and a second countdown. *)
Definition sample_session : list Input :=
  [ Invoke (StartTimer "timer" 2 (Some (opaque 7)));
    Fire 1; Fire 1;
    Invoke (ResetTimer "timer" 0);
    Invoke (StartTimer "timer" 1 None);
    Fire 2 ].

(** A five-second countdown with a completion callback, just started. *)
Definition five_seconds : State :=
  startTimer "timer" 5 (Some (opaque 7%nat)) (init sample_page).

(** A one-minute countdown, just started. *)
Definition one_minute : State :=
  startTimer "timer" 60 None (init sample_page).

(** A slide with a countdown display, the two score displays, a code block
    of three lines, a Merkle tree of two steps, an answer and a progress
    item; after the slide, an element that carries the same classes outside
    of every container. *)
Definition node (id : string) (depth : nat) (classes : list string)
    (text : string) : Element :=
  mkElement id depth classes text EmptyString EmptyString.

Definition workshop_page : list Element :=
  [ node "slide" 0 ["slide"] EmptyString;
    node "timer" 1 [] EmptyString;
    node "score-hacker" 1 [] "0";
    node "score-security" 1 [] "0";
    node "code" 1 ["code-block"] EmptyString;
    node "line-1" 2 ["code-line"] EmptyString;
    node "line-2" 2 ["code-line"; "bug-highlight"] EmptyString;
    node "line-3" 2 ["code-line"] EmptyString;
    node "tree" 1 [] EmptyString;
    node "leaves" 2 ["merkle-step"] EmptyString;
    node "root" 2 ["merkle-step"] EmptyString;
    node "answer" 1 ["reveal-answer"] EmptyString;
    node "step-1" 1 ["progress-item"; "completed"] EmptyString;
    node "aside" 0 ["code-line"; "merkle-step"; "reveal-answer"] EmptyString ].

(** A score update on that page, with the countdown running. *)
Definition workshop_session : list Input :=
  [ Invoke (StartTimer "timer" 90 (Some (7%nat, [MarkComplete "step-1"])));
    Invoke (UpdateScore "hacker" 5);
    Fire 1; Fire 2; Fire 2 ].

(** * Properties *)

(** ** Numbers *)

Module JsNumberFacts.
Import JsNumber.

Lemma round_safe (x : Z) : safe x → round x = x.
Proof.
  unfold safe, round. intros Hx.
  destruct (Z.ltb_spec (Z.abs x) (2 ^ 53)) as [|Hge]; [reflexivity|].
  assert (x = 2 ^ 53 ∨ x = - 2 ^ 53) as [-> | ->] by lia; reflexivity.
Qed.

Lemma round_nonneg (x : Z) : 0 ≤ x → 0 ≤ round x.
Proof.
  intros Hx. unfold round.
  destruct (Z.ltb_spec (Z.abs x) (2 ^ 53)) as [|Hge]; [lia|].
  assert (0 < x) as Hpos by lia.
  rewrite (Z.sgn_pos x Hpos), Z.mul_1_l.
  assert (0 < 2 ^ (Z.log2 (Z.abs x) - 52)) as Hu.
  { apply Z.pow_pos_nonneg; [lia|].
    assert (53 ≤ Z.log2 (Z.abs x)); [|lia].
    apply Z.log2_le_pow2; lia. }
  assert (0 ≤ Z.abs x / 2 ^ (Z.log2 (Z.abs x) - 52)) as Hq
    by (apply Z.div_pos; lia).
  destruct (if _ <? _ then _ else _); nia.
Qed.

Lemma safe_representable (x : Z) : safe x → representable x.
Proof.
  intros Hx. split; [by apply round_safe|].
  unfold safe, finite in *.
  assert (2 ^ 53 < 2 ^ 1024) by reflexivity. lia.
Qed.

Lemma add_safe (x y : Z) : safe (x + y) → add x y = x + y.
Proof. apply round_safe. Qed.


Lemma pred_nonneg (x : Z) : 1 ≤ x → 0 ≤ add x (-1).
Proof. intros Hx. apply round_nonneg. lia. Qed.

End JsNumberFacts.

(** ** Strings *)

Module JsStringFacts.
Import JsString.

Lemma drop_O (s : string) : drop 0 s = s.
Proof. destruct s; reflexivity. Qed.

Lemma take_all (s : string) (n : nat) :
  (String.length s ≤ n)%nat → take n s = s.
Proof.
  revert n; induction s as [|c s IH]; intros [|n] Hn; simpl in *; try lia; auto.
  f_equal. apply IH. lia.
Qed.

Lemma length_take (s : string) (n : nat) :
  (n ≤ String.length s)%nat → String.length (take n s) = n.
Proof.
  revert n; induction s as [|c s IH]; intros [|n] Hn; simpl in *; try lia.
  f_equal. apply IH. lia.
Qed.

Lemma length_drop (s : string) (n : nat) :
  String.length (drop n s) = (String.length s - n)%nat.
Proof.
  revert n; induction s as [|c s IH]; intros [|n]; simpl; auto.
Qed.

Lemma substring_prefix (s : string) (a : Z) :
  0 ≤ a ≤ len s → substring s 0 a = take (Z.to_nat a) s.
Proof.
  intros Ha. unfold substring, clamp.
  replace (Z.max 0 (Z.min 0 (len s))) with 0 by (unfold len; lia).
  replace (Z.max 0 (Z.min a (len s))) with a by lia.
  replace (Z.min 0 a) with 0 by lia.
  replace (Z.max 0 a - 0) with a by lia.
  change (Z.to_nat 0) with 0%nat. by rewrite drop_O.
Qed.

Lemma substring_suffix (s : string) (a : Z) :
  0 ≤ a ≤ len s → substring_from s a = drop (Z.to_nat a) s.
Proof.
  intros Ha. unfold substring_from, substring, clamp.
  replace (Z.max 0 (Z.min a (len s))) with a by lia.
  replace (Z.max 0 (Z.min (len s) (len s))) with (len s) by lia.
  replace (Z.min a (len s)) with a by lia.
  replace (Z.max a (len s)) with (len s) by lia.
  apply take_all. rewrite length_drop. unfold len. lia.
Qed.

End JsStringFacts.

(** ** truncateHash *)

(** C8. A hash strictly shorter than [startChars + endChars + 3] comes back
    unchanged; a strictly longer one comes back as its first [startChars]
    characters, three dots, and its last [endChars] characters. *)
Theorem truncateHash_spec (hash : string) (startChars endChars : Z) :
  0 ≤ startChars → 0 ≤ endChars →
  let first := JsString.take (Z.to_nat startChars) hash in
  let last :=
    JsString.drop (String.length hash - Z.to_nat endChars) hash in
  (JsString.len hash < startChars + endChars + 3 →
     truncateHash hash (Some startChars) (Some endChars) = hash)
  ∧ (JsString.len hash > startChars + endChars + 3 →
     truncateHash hash (Some startChars) (Some endChars)
       = first +:+ "..." +:+ last
     ∧ String.length first = Z.to_nat startChars
     ∧ String.length last = Z.to_nat endChars).
Proof.
  intros Hs He first last. unfold truncateHash; simpl. split; intros Hlen.
  - destruct (Z.leb_spec (JsString.len hash) (startChars + endChars + 3));
      [reflexivity | lia].
  - destruct (Z.leb_spec (JsString.len hash) (startChars + endChars + 3));
      [lia |].
    unfold JsString.len in *.
    rewrite JsStringFacts.substring_prefix, JsStringFacts.substring_suffix
      by (unfold JsString.len; lia).
    subst first last. repeat split.
    + do 3 f_equal. lia.
    + apply JsStringFacts.length_take. lia.
    + rewrite JsStringFacts.length_drop. lia.
Qed.

Lemma truncateHash_spec_witness :
  truncateHash "0x9f86d081884c7d65" (Some 6) (Some 4) = "0x9f86...7d65"
  ∧ truncateHash "0x9f86d0817d" (Some 6) (Some 4) = "0x9f86d0817d"
  ∧ truncateHash "0x9f86d081884c7d65" None None = "0x9f86...7d65".
Proof.
  destruct (truncateHash_spec "0x9f86d081884c7d65" 6 4) as [_ Hlong];
    [lia | lia |].
  destruct (truncateHash_spec "0x9f86d0817d" 6 4) as [Hshort _];
    [lia | lia |].
  split; [| split].
  - destruct Hlong as [Heq _]; [reflexivity |]. rewrite Heq. reflexivity.
  - apply Hshort. vm_compute. reflexivity.
  - reflexivity.
Defined.

(** ** computeKeccakHash *)


(** ** stopTimer *)

(** C10. [stopTimer] cancels the interval that [timerInterval] names and sets
    [timerInterval] to null; the remaining seconds, the document (so the
    displayed text, colour and animation of every element) and everything
    else stay as they were.  Without a handle it changes nothing, so a second
    call in a row has no effect. *)
Theorem stopTimer_frame (st : State) :
  timerInterval (stopTimer st) = None
  ∧ intervals (stopTimer st)
      = from_option (λ h, delete h (intervals st)) (intervals st)
          (timerInterval st)
  ∧ timerSeconds (stopTimer st) = timerSeconds st
  ∧ document (stopTimer st) = document st
  ∧ (∀ el, text_of el (stopTimer st) = text_of el st
           ∧ color_of el (stopTimer st) = color_of el st
           ∧ animation_of el (stopTimer st) = animation_of el st)
  ∧ trace (stopTimer st) = trace st
  ∧ next_handle (stopTimer st) = next_handle st
  ∧ scores (stopTimer st) = scores st
  ∧ merkleAnimationStep (stopTimer st) = merkleAnimationStep st
  ∧ (timerInterval st = None → stopTimer st = st)
  ∧ stopTimer (stopTimer st) = stopTimer st.
Proof.
  destruct st as [doc ivs nh tr [h|] secs sc ms];
    unfold stopTimer, text_of, color_of, animation_of; simpl;
    repeat split; congruence.
Qed.

(** ** Edits of the document leave the script's variables alone *)

Lemma same_core_refl st : same_core st st.
Proof. by repeat split. Qed.

Lemma same_core_trans st1 st2 st3 :
  same_core st1 st2 → same_core st2 st3 → same_core st1 st3.
Proof.
  unfold same_core. intros (?&?&?&?&?) (?&?&?&?&?). repeat split; congruence.
Qed.

Lemma same_core_set_textContent el s st :
  same_core st (set_textContent el s st).
Proof. by repeat split. Qed.

Lemma same_core_set_color el s st : same_core st (set_color el s st).
Proof. by repeat split. Qed.

Lemma same_core_set_animation el s st :
  same_core st (set_animation el s st).
Proof. by repeat split. Qed.

Lemma same_core_edit_classList el f st :
  same_core st (edit_classList el f st).
Proof. by repeat split. Qed.

Lemma same_core_set_merkleAnimationStep n st :
  same_core st (set_merkleAnimationStep n st).
Proof. by repeat split. Qed.

Create HintDb core_frame.

#[local] Hint Resolve same_core_refl same_core_set_textContent
  same_core_set_color same_core_set_animation same_core_edit_classList
  same_core_set_merkleAnimationStep : core_frame.

Section WidgetFacts.
Context `{NumberOps}.

Lemma same_core_remove_class_each c nodes st :
  same_core st (remove_class_each c nodes st).
Proof.
  unfold remove_class_each. revert st.
  induction nodes as [|el nodes IH]; intros st; simpl.
  - apply same_core_refl.
  - eapply same_core_trans; [|apply IH]. apply same_core_edit_classList.
Qed.

Lemma same_core_revealAnswer id st : same_core st (revealAnswer id st).
Proof. unfold revealAnswer. case_match; auto with core_frame. Qed.

Lemma same_core_hideAnswer id st : same_core st (hideAnswer id st).
Proof. unfold hideAnswer. case_match; auto with core_frame. Qed.

Lemma same_core_markComplete id st : same_core st (markComplete id st).
Proof. unfold markComplete. case_match; by repeat split. Qed.

Lemma same_core_setCurrent id st : same_core st (setCurrent id st).
Proof.
  unfold setCurrent.
  eapply same_core_trans; [apply same_core_remove_class_each|].
  repeat case_match; auto with core_frame.
Qed.

Lemma same_core_animateMerkleTree id st :
  same_core st (animateMerkleTree id st).
Proof. unfold animateMerkleTree. repeat case_match; by repeat split. Qed.

Lemma same_core_resetMerkleAnimation id st :
  same_core st (resetMerkleAnimation id st).
Proof.
  unfold resetMerkleAnimation. case_match; [|apply same_core_refl].
  eapply same_core_trans; [|apply same_core_remove_class_each].
  apply same_core_set_merkleAnimationStep.
Qed.

Lemma same_core_highlightBug id n st : same_core st (highlightBug id n st).
Proof. unfold highlightBug. repeat case_match; auto with core_frame. Qed.

Lemma same_core_clearBugHighlights id st :
  same_core st (clearBugHighlights id st).
Proof.
  unfold clearBugHighlights. case_match; [|apply same_core_refl].
  apply same_core_remove_class_each.
Qed.

End WidgetFacts.

(** ** The invariant is established and preserved *)

Lemma Inv_init strict doc : Inv strict (init doc).
Proof.
  split; [|split].
  - intros team. unfold init, known_team; simpl. split.
    + intros [v Hv].
      destruct (decide (team = "security")) as [->|]; [by right|].
      destruct (decide (team = "hacker")) as [->|]; [by left|].
      rewrite !lookup_insert_ne in Hv by done. by rewrite lookup_empty in Hv.
    + intros [-> | ->]; eexists; reflexivity.
  - intros h d cb. simpl. by rewrite lookup_empty.
  - intros _. split; [simpl; lia|]. intros h d cb. simpl.
    by rewrite lookup_empty.
Qed.

Lemma Inv_same_core strict st st' :
  same_core st st' → Inv strict st → Inv strict st'.
Proof.
  intros (Hi & Ht & Hs & Hsc & _) (I1 & I2 & I3). unfold Inv.
  rewrite Hi, Ht, Hs, Hsc. auto.
Qed.

Lemma Inv_insert_animation strict st k el c t s :
  Inv strict st →
  Inv strict (set_intervals (<[k := AnimateStep el c t s]> (intervals st)) st).
Proof.
  intros (I1 & I2 & I3). split; [|split]; simpl.
  - exact I1.
  - intros h d cb. rewrite lookup_insert. case_decide; [done|]. apply I2.
  - intros Hs. destruct (I3 Hs) as [I3a I3b]. split; [done|].
    intros h d cb. rewrite lookup_insert. case_decide; [done|]. apply I3b.
Qed.

Lemma Inv_delete strict st k :
  Inv strict st → Inv strict (set_intervals (delete k (intervals st)) st).
Proof.
  intros (I1 & I2 & I3). split; [|split]; simpl.
  - exact I1.
  - intros h d cb. rewrite lookup_delete. case_decide; [done|]. apply I2.
  - intros Hs. destruct (I3 Hs) as [I3a I3b]. split; [done|].
    intros h d cb. rewrite lookup_delete. case_decide; [done|]. apply I3b.
Qed.

(** Once the interval that [timerInterval] names is cancelled, no countdown
    interval is live. *)
Lemma Inv_cleared strict st h d cb :
  Inv strict st →
  intervals (clearInterval (timerInterval st) st) !! h
    ≠ Some (TimerTick d cb).
Proof.
  intros (_ & I2 & _) Hl. unfold clearInterval in Hl.
  destruct (timerInterval st) as [k|] eqn:Hk; simpl in Hl.
  - rewrite lookup_delete in Hl. case_decide; [done|].
    apply I2 in Hl. congruence.
  - apply I2 in Hl. congruence.
Qed.

Lemma startTimer_core id s cb st d :
  Dom.getElementById id (document st) = Some d →
  intervals (startTimer id s cb st)
    = <[next_handle st := TimerTick d cb]>
        (intervals (clearInterval (timerInterval st) st))
  ∧ timerInterval (startTimer id s cb st) = Some (next_handle st)
  ∧ timerSeconds (startTimer id s cb st) = s
  ∧ scores (startTimer id s cb st) = scores st.
Proof.
  intros Hd. unfold startTimer. rewrite Hd.
  destruct (timerInterval st); by repeat split.
Qed.

Lemma Inv_startTimer strict id s cb st :
  admissible strict (StartTimer id s cb) →
  Inv strict st → Inv strict (startTimer id s cb st).
Proof.
  intros Hadm HI.
  destruct (Dom.getElementById id (document st)) as [d|] eqn:Hd;
    [|unfold startTimer; by rewrite Hd].
  destruct (startTimer_core id s cb st d Hd) as (Ei & Et & Es & Esc).
  pose proof HI as (I1 & I2 & I3).
  unfold Inv. rewrite Ei, Et, Es, Esc. split; [exact I1|split].
  - intros h d' cb'. rewrite lookup_insert. case_decide; [by subst|].
    intros Hl. by destruct (Inv_cleared _ _ _ _ _ HI Hl).
  - intros Hs. specialize (Hadm Hs). simpl in Hadm.
    apply andb_true_iff in Hadm as [Hlo Hcb]. apply Z.leb_le in Hlo.
    split; [lia|]. intros h d' cb'. rewrite lookup_insert.
    case_decide.
    + intros [= <- <-]. split; [lia|]. unfold body_ok.
      destruct cb as [[k body]|]; done.
    + intros Hl. by destruct (Inv_cleared _ _ _ _ _ HI Hl).
Qed.

Lemma stopTimer_core st :
  intervals (stopTimer st) = intervals (clearInterval (timerInterval st) st)
  ∧ timerInterval (stopTimer st) = None
  ∧ timerSeconds (stopTimer st) = timerSeconds st
  ∧ scores (stopTimer st) = scores st
  ∧ document (stopTimer st) = document st.
Proof. unfold stopTimer. destruct (timerInterval st) eqn:E; by repeat split. Qed.

(** With no countdown interval live, the remaining seconds can be set to
    any non-negative number. *)
Lemma Inv_stopped strict st st' :
  Inv strict st →
  intervals st' = intervals (clearInterval (timerInterval st) st) →
  timerInterval st' = None →
  scores st' = scores st →
  (strict = true → 0 ≤ timerSeconds st') →
  Inv strict st'.
Proof.
  intros HI Ei Et Esc Hs. pose proof HI as (I1 & I2 & I3).
  unfold Inv. rewrite Ei, Et, Esc. split; [exact I1|split].
  - intros h d cb Hl. by destruct (Inv_cleared _ _ _ _ _ HI Hl).
  - intros Hst. split; [auto|]. intros h d cb Hl. by destruct (Inv_cleared _ _ _ _ _ HI Hl).
Qed.

Lemma Inv_stopTimer strict st : Inv strict st → Inv strict (stopTimer st).
Proof.
  intros HI. destruct (stopTimer_core st) as (Ei & Et & Es & Esc & _).
  apply (Inv_stopped strict st); auto.
  intros Hs. rewrite Es. destruct HI as (_ & _ & I3). by apply I3.
Qed.

Lemma Inv_resetTimer strict id s st :
  admissible strict (ResetTimer id s) →
  Inv strict st → Inv strict (resetTimer id s st).
Proof.
  intros Hadm HI. unfold resetTimer.
  destruct (Dom.getElementById id (document (stopTimer st))) as [d|];
    [|by apply Inv_stopTimer].
  destruct (stopTimer_core st) as (Ei & Et & Es & Esc & _).
  apply (Inv_stopped strict st); auto.
  intros Hs. specialize (Hadm Hs). simpl in *. by apply Z.leb_le.
Qed.

Lemma Inv_set_score strict st team v :
  known_team team →
  Inv strict st → Inv strict (set_scores (<[team := v]> (scores st)) st).
Proof.
  intros Hk (I1 & I2 & I3). split; [|split]; [|exact I2|exact I3].
  intros k. simpl. rewrite lookup_insert. case_decide; [|apply I1].
  subst. split; [done | by eexists].
Qed.

Lemma Inv_set_seconds strict st s :
  (strict = true → 1 ≤ s) →
  Inv strict st → Inv strict (set_timerSeconds s st).
Proof.
  intros Hs (I1 & I2 & I3). split; [|split]; [exact I1|exact I2|].
  intros Hst. specialize (Hs Hst). destruct (I3 Hst) as [_ I3b]. simpl.
  split; [lia|]. intros h d cb Hl. destruct (I3b h d cb Hl). split; [lia|done].
Qed.

Section InvariantPreserved.
Context `{NumberOps}.

Lemma Inv_animateNumber strict el v st :
  Inv strict st → Inv strict (animateNumber el v st).
Proof.
  intros HI. unfold animateNumber, setInterval; simpl.
  exact (Inv_insert_animation strict st (next_handle st) _ _ _ _ HI).
Qed.

Lemma Inv_updateScoreDisplay strict st :
  Inv strict st → Inv strict (updateScoreDisplay st).
Proof.
  intros HI. unfold updateScoreDisplay.
  repeat case_match; repeat apply Inv_animateNumber; done.
Qed.

Lemma hasOwnProperty_known strict team st :
  Inv strict st → hasOwnProperty team st = true ↔ known_team team.
Proof.
  intros (I1 & _). unfold hasOwnProperty.
  rewrite bool_decide_eq_true. apply I1.
Qed.

Lemma Inv_updateScore strict team points st :
  Inv strict st → Inv strict (updateScore team points st).
Proof.
  intros HI. unfold updateScore.
  destruct (hasOwnProperty team st) eqn:Hown; [|done].
  apply Inv_updateScoreDisplay, Inv_set_score; [|done].
  by apply (hasOwnProperty_known strict team st).
Qed.

Lemma Inv_setScore strict team points st :
  Inv strict st → Inv strict (setScore team points st).
Proof.
  intros HI. unfold setScore.
  destruct (hasOwnProperty team st) eqn:Hown; [|done].
  apply Inv_updateScoreDisplay, Inv_set_score; [|done].
  by apply (hasOwnProperty_known strict team st).
Qed.

Lemma Inv_resetScores strict st :
  Inv strict st → Inv strict (resetScores st).
Proof.
  intros HI. unfold resetScores.
  apply Inv_updateScoreDisplay.
  apply (Inv_set_score strict _ "security"); [by right|].
  apply (Inv_set_score strict _ "hacker"); [by left|done].
Qed.

Lemma Inv_exec strict c st :
  admissible strict c → Inv strict st → Inv strict (exec c st).
Proof.
  intros Hadm HI. destruct c; simpl.
  - by apply Inv_startTimer.
  - by apply Inv_stopTimer.
  - by apply Inv_resetTimer.
  - eapply Inv_same_core; [apply same_core_revealAnswer|done].
  - eapply Inv_same_core; [apply same_core_hideAnswer|done].
  - by apply Inv_updateScore.
  - by apply Inv_setScore.
  - by apply Inv_resetScores.
  - eapply Inv_same_core; [apply same_core_markComplete|done].
  - eapply Inv_same_core; [apply same_core_setCurrent|done].
  - eapply Inv_same_core; [apply same_core_animateMerkleTree|done].
  - eapply Inv_same_core; [apply same_core_resetMerkleAnimation|done].
  - eapply Inv_same_core; [apply same_core_highlightBug|done].
  - eapply Inv_same_core; [apply same_core_clearBugHighlights|done].
Qed.

Lemma Inv_exec_all strict body st :
  (strict = true → forallb (seconds_from 1) body = true) →
  Inv strict st → Inv strict (foldl (λ st c, exec c st) st body).
Proof.
  revert st. induction body as [|c body IH]; intros st Hb HI; [done|].
  simpl. apply IH.
  - intros Hs. specialize (Hb Hs). simpl in Hb.
    by apply andb_true_iff in Hb as [_ ?].
  - apply Inv_exec; [|done]. intros Hs. specialize (Hb Hs). simpl in Hb.
    by apply andb_true_iff in Hb as [? _].
Qed.

Lemma Inv_invoke strict cb st :
  (strict = true → body_ok cb) →
  Inv strict st → Inv strict (invoke cb st).
Proof.
  intros Hb HI. destruct cb as [[name body]|]; [|done]. simpl.
  apply Inv_exec_all; [done|]. eapply Inv_same_core; [|exact HI].
  by repeat split.
Qed.

Lemma Inv_timerTick strict h d cb st :
  intervals st !! h = Some (TimerTick d cb) →
  Inv strict st → Inv strict (timerTick d cb st).
Proof.
  intros Hl HI. pose proof HI as (I1 & I2 & I3).
  unfold timerTick.
  set (st1 := updateTimerDisplay d (set_timerSeconds (JsNumber.add (timerSeconds st) (-1)) st)).
  set (st2 := if timerSeconds st1 <=? 0 then _ else st1).
  assert (Inv strict st2) as HI2.
  { subst st2. change (timerSeconds st1) with (JsNumber.add (timerSeconds st) (-1)).
    destruct (Z.leb_spec (JsNumber.add (timerSeconds st) (-1)) 0) as [Hle|Hgt].
    - apply Inv_invoke.
      { intros Hs. destruct (I3 Hs) as [_ I3b]. by destruct (I3b h d cb Hl). }
      apply (Inv_stopped strict st); [done| | | |].
      + subst st1; simpl. by destruct (timerInterval st).
      + done.
      + subst st1; simpl. by destruct (timerInterval st).
      + intros Hs. destruct (I3 Hs) as [_ I3b]. destruct (I3b h d cb Hl).
        subst st1; simpl.
        destruct (timerInterval st); simpl; by apply JsNumberFacts.pred_nonneg.
    - eapply Inv_same_core; [apply same_core_set_textContent|].
      apply Inv_set_seconds; [lia|done]. }
  clearbody st2.
  repeat case_match;
    repeat (eapply Inv_same_core; [apply same_core_set_color|]); done.
Qed.

Lemma Inv_animateTick strict h el c t s st :
  Inv strict st → Inv strict (animateTick h el c t s st).
Proof.
  intros HI. unfold animateTick.
  case_match.
  - eapply Inv_same_core; [apply same_core_set_textContent|].
    unfold clearInterval. apply Inv_delete.
    eapply Inv_same_core; [apply same_core_set_textContent|].
    by apply Inv_insert_animation.
  - eapply Inv_same_core; [apply same_core_set_textContent|].
    by apply Inv_insert_animation.
Qed.

Lemma Inv_fire strict h st : Inv strict st → Inv strict (fire h st).
Proof.
  intros HI. unfold fire.
  destruct (intervals st !! h) as [[d cb|el c t s]|] eqn:Hl; [| |done].
  - by apply (Inv_timerTick strict h).
  - by apply Inv_animateTick.
Qed.

(** The invariant holds in every state the page reaches. *)
Lemma Inv_run strict inputs st :
  (strict = true → forallb (input_seconds_from 1) inputs = true) →
  Inv strict st → Inv strict (run inputs st).
Proof.
  unfold run. revert st.
  induction inputs as [|i inputs IH]; intros st Hin HI; [done|].
  simpl. apply IH.
  - intros Hs. specialize (Hin Hs). simpl in Hin.
    by apply andb_true_iff in Hin as [_ ?].
  - destruct i as [c|h|el e]; simpl.
    + apply Inv_exec; [|done]. intros Hs. specialize (Hin Hs). simpl in Hin.
      by apply andb_true_iff in Hin as [? _].
    + by apply Inv_fire.
    + eapply Inv_same_core; [|exact HI]. by repeat split.
Qed.

End InvariantPreserved.

(** ** Interval ids are fresh *)

Lemma fresh_shrink st st' :
  (∀ h, is_Some (intervals st' !! h) → is_Some (intervals st !! h)) →
  next_handle st' = next_handle st →
  handles_fresh st → handles_fresh st'.
Proof.
  intros Hsub Hn Hf h Hh. rewrite Hn. by apply Hf, Hsub.
Qed.

Lemma fresh_same_core st st' :
  same_core st st' → handles_fresh st → handles_fresh st'.
Proof.
  intros (Hi & _ & _ & _ & Hn). apply fresh_shrink; [|done]. by rewrite Hi.
Qed.

Lemma fresh_clearInterval k st :
  handles_fresh st → handles_fresh (clearInterval k st).
Proof.
  apply fresh_shrink; [|by destruct k]. intros h.
  destruct k as [k|]; simpl; [|done].
  rewrite lookup_delete. by case_decide; [intros []|].
Qed.

Lemma fresh_setInterval f st :
  handles_fresh st → handles_fresh (setInterval f st).2.
Proof.
  intros Hf h. unfold setInterval; simpl. rewrite lookup_insert.
  case_decide; [subst; lia|]. intros Hh. specialize (Hf h Hh). lia.
Qed.

Lemma fresh_startTimer id s cb st :
  handles_fresh st → handles_fresh (startTimer id s cb st).
Proof.
  intros Hf. unfold startTimer. case_match; [|done].
  apply (fresh_setInterval (TimerTick _ cb)
           (updateTimerDisplay _ (set_timerSeconds s (clearInterval _ st)))).
  eapply fresh_same_core; [apply same_core_set_textContent|].
  by apply (fresh_clearInterval (timerInterval st)) in Hf.
Qed.

Lemma fresh_stopTimer st : handles_fresh st → handles_fresh (stopTimer st).
Proof.
  intros Hf. unfold stopTimer. destruct (timerInterval st) as [k|]; [|done].
  by apply (fresh_clearInterval (Some k)) in Hf.
Qed.

Lemma fresh_resetTimer id s st :
  handles_fresh st → handles_fresh (resetTimer id s st).
Proof.
  intros Hf. apply fresh_stopTimer in Hf. unfold resetTimer.
  case_match; [|done]. revert Hf. by apply fresh_shrink.
Qed.

Section Fresh.
Context `{NumberOps}.

Lemma fresh_updateScoreDisplay st :
  handles_fresh st → handles_fresh (updateScoreDisplay st).
Proof.
  intros Hf. unfold updateScoreDisplay, animateNumber.
  repeat case_match; repeat apply fresh_setInterval; done.
Qed.

Lemma fresh_exec c st : handles_fresh st → handles_fresh (exec c st).
Proof.
  intros Hf. destruct c; simpl.
  - by apply fresh_startTimer.
  - by apply fresh_stopTimer.
  - by apply fresh_resetTimer.
  - eapply fresh_same_core; [apply same_core_revealAnswer|done].
  - eapply fresh_same_core; [apply same_core_hideAnswer|done].
  - unfold updateScore. case_match; [|done].
    by apply fresh_updateScoreDisplay.
  - unfold setScore. case_match; [|done].
    by apply fresh_updateScoreDisplay.
  - by apply fresh_updateScoreDisplay.
  - eapply fresh_same_core; [apply same_core_markComplete|done].
  - eapply fresh_same_core; [apply same_core_setCurrent|done].
  - eapply fresh_same_core; [apply same_core_animateMerkleTree|done].
  - eapply fresh_same_core; [apply same_core_resetMerkleAnimation|done].
  - eapply fresh_same_core; [apply same_core_highlightBug|done].
  - eapply fresh_same_core; [apply same_core_clearBugHighlights|done].
Qed.

Lemma fresh_invoke cb st : handles_fresh st → handles_fresh (invoke cb st).
Proof.
  intros Hf. destruct cb as [[name body]|]; [|done]. simpl.
  assert (handles_fresh (log (EvInvoke name) st)) as Hf' by done.
  revert Hf'. generalize (log (EvInvoke name) st). clear Hf.
  induction body as [|c body IH]; intros s Hs; [done|].
  simpl. by apply IH, fresh_exec.
Qed.

Lemma fresh_fire h st : handles_fresh st → handles_fresh (fire h st).
Proof.
  intros Hf. unfold fire.
  destruct (intervals st !! h) as [[d cb|el c t s]|] eqn:Hl; [| |done].
  - unfold timerTick.
    set (st1 := updateTimerDisplay d (set_timerSeconds (JsNumber.add (timerSeconds st) (-1)) st)).
    set (st2 := if timerSeconds st1 <=? 0 then _ else st1).
    assert (handles_fresh st2) as Hf2.
    { subst st2. destruct (timerSeconds st1 <=? 0); [|done].
      apply fresh_invoke.
      apply (fresh_shrink (clearInterval (timerInterval st) st));
        [| |by apply fresh_clearInterval];
        subst st1; simpl; by destruct (timerInterval st). }
    clearbody st2. by repeat case_match.
  - unfold animateTick.
    assert (handles_fresh
              (set_intervals (<[h := AnimateStep el c t (s + 1)]> (intervals st)) st))
      as Hf1.
    { revert Hf. apply fresh_shrink; [|done]. intros k. simpl.
      rewrite lookup_insert. case_decide; [subst; by rewrite Hl|done]. }
    case_match; [|done].
    by apply (fresh_clearInterval (Some h)) in Hf1.
Qed.

Lemma fresh_run inputs st :
  handles_fresh st → handles_fresh (run inputs st).
Proof.
  unfold run. revert st.
  induction inputs as [|i inputs IH]; intros st Hf; [done|].
  simpl. apply IH. destruct i; simpl.
  - by apply fresh_exec.
  - by apply fresh_fire.
  - eapply fresh_same_core; [|exact Hf]. by repeat split.
Qed.

End Fresh.

(** ** Scoreboard *)

Section Scoreboard.
Context `{NumberOps}.

Lemma scores_updateScoreDisplay st :
  scores (updateScoreDisplay st) = scores st.
Proof. unfold updateScoreDisplay. by repeat case_match. Qed.

Lemma scores_updateScore strict team points st :
  Inv strict st →
  scores (updateScore team points st)
    = if decide (known_team team)
      then <[team := JsNumber.add (score_of team st) points]> (scores st)
      else scores st.
Proof.
  intros HI. unfold updateScore.
  pose proof (hasOwnProperty_known strict team st HI) as Hk.
  destruct (hasOwnProperty team st); case_decide.
  - by rewrite scores_updateScoreDisplay.
  - tauto.
  - by destruct Hk as [_ Hk]; specialize (Hk ltac:(done)).
  - done.
Qed.

Lemma scores_setScore strict team points st :
  Inv strict st →
  scores (setScore team points st)
    = if decide (known_team team)
      then <[team := points]> (scores st)
      else scores st.
Proof.
  intros HI. unfold setScore.
  pose proof (hasOwnProperty_known strict team st HI) as Hk.
  destruct (hasOwnProperty team st); case_decide.
  - by rewrite scores_updateScoreDisplay.
  - tauto.
  - by destruct Hk as [_ Hk]; specialize (Hk ltac:(done)).
  - done.
Qed.

(** C1 (amended). In every state the page reaches, [updateScore(team, delta)]
    adds [delta] to the stored score of [team] and [setScore(team, value)]
    sets it to [value] exactly when [team] is "hacker" or "security", leaving
    the other team's score alone; for any other key both leave the whole
    state as it is.  The sum is the one of JavaScript numbers, the exact
    sum rounded to the nearest double (stated for a score and a [delta] that
    are doubles, and a finite result): it is the exact one when the score,
    [delta] and their sum are whole numbers up to 2^53 in absolute value;
    [value] is any whole number that is a JavaScript number.  On a fresh
    page, [updateScore("hacker", 5)] followed by [updateScore("hacker", -2)]
    gives "hacker" the score 3, and [updateScore("referee", 100)] changes no
    score. *)
Theorem score_updates (doc : list Element) (inputs : list Input)
    (team : string) (delta value : Z) :
  let st := run inputs (init doc) in
  let exact :=
    JsNumber.safe (score_of team st) ∧ JsNumber.safe delta
    ∧ JsNumber.safe (score_of team st + delta) in
  (JsNumber.representable (score_of team st) →
   JsNumber.representable delta →
   JsNumber.finite (JsNumber.add (score_of team st) delta) →
     scores (updateScore team delta st)
     = (if decide (known_team team)
        then <[team := JsNumber.add (score_of team st) delta]> (scores st)
        else scores st))
  ∧ (exact →
     scores (updateScore team delta st)
     = (if decide (known_team team)
        then <[team := score_of team st + delta]> (scores st)
        else scores st))
  ∧ (JsNumber.representable value →
     scores (setScore team value st)
     = (if decide (known_team team)
        then <[team := value]> (scores st)
        else scores st))
  ∧ (known_team team →
       (exact →
          score_of team (updateScore team delta st) = score_of team st + delta)
       ∧ (JsNumber.representable value →
          score_of team (setScore team value st) = value)
       ∧ ∀ other, other ≠ team →
           score_of other (updateScore team delta st) = score_of other st
           ∧ score_of other (setScore team value st) = score_of other st)
  ∧ (¬ known_team team →
       updateScore team delta st = st ∧ setScore team value st = st)
  ∧ score_of "hacker"
      (run [Invoke (UpdateScore "hacker" 5); Invoke (UpdateScore "hacker" (-2))]
           (init doc)) = 3
  ∧ scores (updateScore "referee" 100 st) = scores st.
Proof.
  intros st exact.
  assert (Inv false st) as HI.
  { apply Inv_run; [done | apply Inv_init]. }
  pose proof (scores_updateScore false team delta st HI) as Hu.
  pose proof (scores_setScore false team value st HI) as Hs.
  assert (exact → JsNumber.add (score_of team st) delta
                  = score_of team st + delta) as Hsum.
  { intros (_ & _ & Hsafe). by apply JsNumberFacts.add_safe. }
  split; [intros _ _ _; exact Hu|]. split; [intros Hex; by rewrite Hu, Hsum|].
  split; [intros _; exact Hs|]. split; [|split; [|split]].
  - intros Hk. rewrite decide_True in Hu, Hs by done.
    unfold score_of. rewrite Hu, Hs, !lookup_insert_eq.
    split; [intros Hex; simpl; by apply Hsum|]. split; [done|].
    intros other Hne. by rewrite !lookup_insert_ne.
  - intros Hk. unfold updateScore, setScore.
    destruct (hasOwnProperty team st) eqn:Hown; [|done].
    by apply (hasOwnProperty_known false team st HI) in Hown.
  - unfold run; simpl.
    assert (Inv false (init doc)) as H0 by apply Inv_init.
    assert (Inv false (updateScore "hacker" 5 (init doc))) as H1
      by by apply Inv_updateScore.
    unfold score_of at 1.
    rewrite (scores_updateScore false _ _ _ H1), decide_True by by left.
    rewrite lookup_insert_eq. unfold score_of.
    rewrite (scores_updateScore false _ _ _ H0), decide_True by by left.
    by rewrite lookup_insert_eq.
  - rewrite (scores_updateScore false _ _ _ HI), decide_False; [done|].
    by intros [|].
Qed.

End Scoreboard.

(** ** A single countdown interval *)

Lemma live_timers_lookup st h :
  h ∈ live_timers st ↔ ∃ d cb, intervals st !! h = Some (TimerTick d cb).
Proof.
  unfold live_timers. rewrite list_elem_of_fmap. split.
  - intros [[k f] [-> Hin]]. apply elem_of_map_to_list in Hin.
    apply map_lookup_filter_Some in Hin as [Hl Ht].
    destruct f as [d cb|]; [by exists d, cb | done].
  - intros (d & cb & Hl). exists (h, TimerTick d cb). split; [done|].
    apply elem_of_map_to_list. by apply map_lookup_filter_Some.
Qed.

Lemma live_timers_NoDup st : NoDup (live_timers st).
Proof. apply NoDup_fst_map_to_list. Qed.

Lemma timers_only_same_intervals st st' :
  intervals st' = intervals st → timers_only st → timers_only st'.
Proof. unfold timers_only. by intros ->. Qed.

Lemma timers_only_delete st st' k :
  intervals st' = delete k (intervals st) → timers_only st → timers_only st'.
Proof.
  unfold timers_only. intros -> Hall h f Hl.
  rewrite lookup_delete in Hl. case_decide; [done|]. by apply (Hall h).
Qed.

Lemma timers_only_clear st st' :
  intervals st' = intervals (clearInterval (timerInterval st) st) →
  timers_only st → timers_only st'.
Proof.
  intros Ei. unfold clearInterval in Ei.
  destruct (timerInterval st) as [k|]; simpl in Ei.
  - by apply (timers_only_delete st st' k).
  - by apply (timers_only_same_intervals st).
Qed.

Lemma live_timers_all st :
  timers_only st → live_timers st = (map_to_list (intervals st)).*1.
Proof.
  intros Hall. unfold live_timers. f_equal. f_equal.
  apply map_eq. intros h.
  destruct (intervals st !! h) as [f|] eqn:Hl.
  - apply map_lookup_filter_Some. split; [done|]. simpl.
    by destruct (Hall h f Hl) as (d & cb & -> & _).
  - apply map_lookup_filter_None. by left.
Qed.

Section SingleTimer.
Context `{NumberOps}.

Lemma timers_only_exec c st :
  timer_call c = true → timers_only st → timers_only (exec c st).
Proof.
  intros Hc Hall. destruct c; simpl in *; try done.
  - destruct (Dom.getElementById displayId (document st)) as [d|] eqn:Hd;
      [|unfold startTimer; by rewrite Hd].
    destruct (startTimer_core displayId seconds onComplete st d Hd)
      as (Ei & _).
    intros h f. rewrite Ei, lookup_insert. case_decide.
    + intros [= <-]. exists d, onComplete. split; [done|].
      destruct onComplete as [[name body]|]; done.
    + apply (timers_only_clear st); [|done].
      by destruct (timerInterval st).
  - destruct (stopTimer_core st) as (Ei & _).
    by apply (timers_only_clear st).
  - unfold resetTimer.
    destruct (stopTimer_core st) as (Ei & _).
    case_match; apply (timers_only_clear st); done.
Qed.

Lemma timers_only_exec_all body st :
  forallb timer_call body = true →
  timers_only st → timers_only (foldl (λ st c, exec c st) st body).
Proof.
  revert st. induction body as [|c body IH]; intros st Hb Hall; [done|].
  simpl in *. apply andb_true_iff in Hb as [Hc Hb].
  apply IH; [done|]. by apply timers_only_exec.
Qed.

Lemma timers_only_fire h st : timers_only st → timers_only (fire h st).
Proof.
  intros Hall. unfold fire.
  destruct (intervals st !! h) as [f|] eqn:Hl; [|done].
  destruct (Hall h f Hl) as (d & cb & -> & Hcb).
  unfold timerTick.
  set (st1 := updateTimerDisplay d (set_timerSeconds (JsNumber.add (timerSeconds st) (-1)) st)).
  set (st2 := if timerSeconds st1 <=? 0 then _ else st1).
  assert (timers_only st2) as Hall2.
  { subst st2. destruct (timerSeconds st1 <=? 0); [|done].
    destruct cb as [[name body]|]; simpl.
    - apply timers_only_exec_all; [done|].
      apply (timers_only_clear st); [|done].
      subst st1; simpl. by destruct (timerInterval st).
    - apply (timers_only_clear st); [|done].
      subst st1; simpl. by destruct (timerInterval st). }
  clearbody st2. by repeat case_match.
Qed.

Lemma timers_only_run inputs st :
  forallb timer_input inputs = true →
  timers_only st → timers_only (run inputs st).
Proof.
  unfold run. revert st.
  induction inputs as [|i inputs IH]; intros st Hin Hall; [done|].
  simpl in *. apply andb_true_iff in Hin as [Hi Hin]. apply IH; [done|].
  destruct i as [c|h|el e]; simpl.
  - by apply timers_only_exec.
  - by apply timers_only_fire.
  - by apply (timers_only_same_intervals st).
Qed.

(** C2. In every state the page reaches there is at most one live countdown
    interval, and it is the one [timerInterval] names; with [timerInterval]
    null there is none.  When only [startTimer], [stopTimer] and
    [resetTimer] are called, the countdown interval is the only interval
    there can be, so at most one interval is live at all.  The id that
    [setInterval] hands out next is never one of a live interval, so a new
    interval replaces none. *)
Theorem single_timer (doc : list Element) (inputs : list Input) :
  let st := run inputs (init doc) in
  (length (live_timers st) ≤ 1)%nat
  ∧ Forall (λ h, timerInterval st = Some h) (live_timers st)
  ∧ (timerInterval st = None → live_timers st = [])
  ∧ (forallb timer_input inputs = true → (size (intervals st) ≤ 1)%nat)
  ∧ handles_fresh st.
Proof.
  intros st.
  assert (handles_fresh st) as Hfresh.
  { apply fresh_run. intros h. simpl. rewrite lookup_empty. by intros []. }
  assert (Inv false st) as (_ & I2 & _).
  { apply Inv_run; [done | apply Inv_init]. }
  assert (Forall (λ h, timerInterval st = Some h) (live_timers st)) as Hall.
  { apply Forall_forall. intros h Hin.
    apply live_timers_lookup in Hin as (d & cb & Hl). by apply (I2 h d cb). }
  pose proof (live_timers_NoDup st) as Hnd.
  assert (length (live_timers st) ≤ 1)%nat as Hone.
  { destruct (live_timers st) as [|a [|b l]]; simpl; [lia | lia |].
    exfalso. apply Forall_cons in Hall as [Ha Hall].
    apply Forall_cons in Hall as [Hb _].
    apply NoDup_cons in Hnd as [Hnotin _]. apply Hnotin.
    rewrite Ha in Hb. injection Hb as ->. by left. }
  split; [done|]. split; [done|]. split; [|split; [|done]].
  - intros Hnone. destruct (live_timers st) as [|a l]; [done|].
    apply Forall_cons in Hall as [Ha _]. congruence.
  - intros Hin.
    assert (timers_only st) as Honly.
    { apply timers_only_run; [done|]. intros h f. simpl.
      by rewrite lookup_empty. }
    rewrite live_timers_all in Hone by done.
    by rewrite length_fmap, length_map_to_list in Hone.
Qed.

End SingleTimer.

(** ** The remaining seconds *)

Section RemainingSeconds.
Context `{NumberOps}.

(** C5 (amended). When every [startTimer] is given a positive number of
    seconds and every [resetTimer] a non-negative one, the remaining seconds
    are never negative in any state the page reaches, and are at least one
    for as long as a countdown interval is live. *)
Theorem remaining_seconds_nonneg (doc : list Element) (inputs : list Input) :
  forallb (input_seconds_from 1) inputs = true →
  let st := run inputs (init doc) in
  0 ≤ timerSeconds st
  ∧ (live_timers st ≠ [] → 1 ≤ timerSeconds st).
Proof.
  intros Hin st.
  assert (Inv true st) as (_ & _ & I3).
  { apply Inv_run; [done | apply Inv_init]. }
  destruct (I3 eq_refl) as [I3a I3b]. split; [done|].
  intros Hlive. destruct (live_timers st) as [|h l] eqn:E; [done|].
  assert (h ∈ live_timers st) as Hh by (rewrite E; by left).
  apply live_timers_lookup in Hh as (d & cb & Hl).
  by destruct (I3b h d cb Hl).
Qed.

End RemainingSeconds.

(** ** Reading the document after an edit *)

Lemma from_option_alter_frame {B} (g : Element → B) (x : B)
    (f : Element → Element) (i j : nat) (doc : list Element) :
  (∀ e, g (f e) = g e) →
  from_option g x (alter f i doc !! j) = from_option g x (doc !! j).
Proof.
  intros Hf. destruct (decide (i = j)) as [->|Hne].
  - rewrite list_lookup_alter_eq. destruct (doc !! j); simpl; auto.
  - by rewrite list_lookup_alter_ne.
Qed.


Lemma is_Some_alter (f : Element → Element) (i j : nat) (doc : list Element) :
  is_Some (alter f i doc !! j) ↔ is_Some (doc !! j).
Proof. rewrite !lookup_lt_is_Some. by rewrite length_alter. Qed.



Lemma getElementById_is_Some id doc d :
  Dom.getElementById id doc = Some d → is_Some (doc !! d).
Proof.
  unfold Dom.getElementById. case_bool_decide; [done|].
  destruct (list_find _ doc) as [[i e]|] eqn:Hf; [|done].
  intros [= <-]. apply list_find_Some in Hf as (He & _). by exists e.
Qed.

(** ** The rendered time *)



Lemma invocations_app name tr1 tr2 :
  invocations name (tr1 ++ tr2)
    = (invocations name tr1 + invocations name tr2)%nat.
Proof. unfold invocations. by rewrite filter_app, length_app. Qed.


(** ** Calls that leave the countdown alone *)










Section CallbackFrame.
Context `{NumberOps}.











End CallbackFrame.

(** ** One tick of the countdown *)


Section Tick.
Context `{NumberOps}.











End Tick.

(** ** Rendering and colours on a tick *)

Section TickColors.
Context `{NumberOps}.


End TickColors.

(** ** A countdown that runs out *)

Section Countdown.
Context `{NumberOps}.








End Countdown.

(** ** Class lists *)

Lemma contains_true c cl : Dom.contains c cl = true ↔ c ∈ cl.
Proof. unfold Dom.contains. apply bool_decide_eq_true. Qed.

Lemma elem_of_remove c x cl : x ∈ Dom.remove c cl ↔ x ∈ cl ∧ x ≠ c.
Proof. unfold Dom.remove. rewrite list_elem_of_filter. tauto. Qed.

Lemma remove_remove c cl : Dom.remove c (Dom.remove c cl) = Dom.remove c cl.
Proof.
  unfold Dom.remove. induction cl as [|x cl IH]; [done|].
  rewrite filter_cons. case_decide; [|done].
  rewrite filter_cons, decide_True by done. by rewrite IH.
Qed.

Lemma contains_remove_ne c x cl :
  x ≠ c → Dom.contains x (Dom.remove c cl) = Dom.contains x cl.
Proof.
  intros Hne. unfold Dom.contains. apply bool_decide_ext.
  rewrite elem_of_remove. tauto.
Qed.

Lemma classes_of_edit el el' f st :
  f [] = [] →
  classes_of el (edit_classList el' f st)
    = if decide (el' = el) then f (classes_of el st) else classes_of el st.
Proof.
  intros Hf. unfold classes_of, edit_classList. simpl. case_decide.
  - subst. rewrite list_lookup_alter_eq.
    by destruct (document st !! el).
  - by rewrite list_lookup_alter_ne.
Qed.

Lemma classes_of_edit_valid el f st :
  is_Some (document st !! el) →
  classes_of el (edit_classList el f st) = f (classes_of el st).
Proof.
  intros [e He]. unfold classes_of, edit_classList. simpl.
  by rewrite list_lookup_alter_eq, He.
Qed.

Lemma classes_of_edit_ne el el' f st :
  el' ≠ el → classes_of el (edit_classList el' f st) = classes_of el st.
Proof.
  intros Hne. unfold classes_of, edit_classList. simpl.
  by rewrite list_lookup_alter_ne.
Qed.

Lemma classes_of_remove_class_each c nodes el st :
  classes_of el (remove_class_each c nodes st)
    = if bool_decide (el ∈ nodes) then Dom.remove c (classes_of el st)
      else classes_of el st.
Proof.
  unfold remove_class_each. revert st.
  induction nodes as [|x nodes IH]; intros st; simpl; [done|].
  rewrite IH, classes_of_edit by done.
  destruct (decide (x = el)) as [->|Hne].
  - rewrite (bool_decide_eq_true_2 (el ∈ el :: nodes)) by by left.
    case_bool_decide; [apply remove_remove | done].
  - assert (bool_decide (el ∈ x :: nodes) = bool_decide (el ∈ nodes)) as ->;
      [|done].
    apply bool_decide_ext. rewrite elem_of_cons. split; [|auto].
    by intros [->|?].
Qed.

Lemma elem_of_select_from i cs doc el :
  el ∈ Dom.select_from i cs doc
  ↔ (i ≤ el)%nat
    ∧ ∃ e, doc !! (el - i)%nat = Some e
           ∧ forallb (λ c, Dom.has_class c e) cs = true.
Proof.
  revert i. induction doc as [|x doc IH]; intros i; simpl.
  - rewrite elem_of_nil. split; [done|]. by intros (_ & e & He & _).
  - destruct (forallb (λ c, Dom.has_class c x) cs) eqn:Hx;
      rewrite ?elem_of_cons, IH; split.
    + intros [->|(Hle & e & He & Hc)].
      * split; [lia|]. exists x. by rewrite Nat.sub_diag.
      * split; [lia|]. exists e. split; [|done].
        by replace (el - i)%nat with (S (el - S i)) by lia.
    + intros (Hle & e & He & Hc).
      destruct (decide (el = i)) as [->|Hne]; [by left|right].
      split; [lia|]. exists e. split; [|done].
      by replace (el - i)%nat with (S (el - S i)) in He by lia.
    + intros (Hle & e & He & Hc). split; [lia|]. exists e. split; [|done].
      by replace (el - i)%nat with (S (el - S i)) by lia.
    + intros (Hle & e & He & Hc).
      destruct (decide (el = i)) as [->|Hne].
      * rewrite Nat.sub_diag in He. simpl in He. injection He as <-.
        congruence.
      * split; [lia|]. exists e. split; [|done].
        by replace (el - i)%nat with (S (el - S i)) in He by lia.
Qed.

(** The elements matched by [.progress-item.current]. *)
Lemma elem_of_progress_current el st :
  el ∈ Dom.querySelectorAll ["progress-item"; "current"] (document st)
  ↔ Dom.contains "progress-item" (classes_of el st)
      && Dom.contains "current" (classes_of el st) = true.
Proof.
  unfold Dom.querySelectorAll. rewrite elem_of_select_from, Nat.sub_0_r.
  unfold classes_of, Dom.has_class. simpl. split.
  - intros (_ & e & -> & Hc). simpl. by rewrite andb_true_r in Hc.
  - intros Hc. split; [lia|].
    destruct (document st !! el) as [e|]; [|done].
    exists e. split; [done|]. simpl in Hc. by rewrite andb_true_r.
Qed.

Lemma find_id_alter id (f : Element → Element) i doc :
  (∀ e, el_id (f e) = el_id e) →
  fst <$> list_find (λ e, el_id e = id) (alter f i doc)
    = fst <$> list_find (λ e, el_id e = id) doc.
Proof.
  intros Hf. revert i. induction doc as [|x doc IH]; intros i; [done|].
  destruct i as [|i]; simpl.
  - rewrite Hf. by case_decide.
  - case_decide; [done|]. specialize (IH i).
    change (list_alter f i doc) with (alter f i doc).
    destruct (list_find _ (alter f i doc)) as [[? ?]|],
             (list_find _ doc) as [[? ?]|]; simpl in *; congruence.
Qed.

Lemma getElementById_edit_classList id el f st :
  Dom.getElementById id (document (edit_classList el f st))
    = Dom.getElementById id (document st).
Proof.
  unfold Dom.getElementById. case_bool_decide; [done|].
  by apply find_id_alter.
Qed.

Lemma getElementById_remove_class_each id c nodes st :
  Dom.getElementById id (document (remove_class_each c nodes st))
    = Dom.getElementById id (document st).
Proof.
  unfold remove_class_each. revert st.
  induction nodes as [|x nodes IH]; intros st; simpl; [done|].
  by rewrite IH, getElementById_edit_classList.
Qed.

Lemma is_Some_remove_class_each c nodes st el :
  is_Some (document (remove_class_each c nodes st) !! el)
  ↔ is_Some (document st !! el).
Proof.
  unfold remove_class_each. revert st.
  induction nodes as [|x nodes IH]; intros st; simpl; [done|].
  rewrite IH. apply is_Some_alter.
Qed.

Lemma classes_of_cleared el st :
  classes_of el
    (remove_class_each "current"
       (Dom.querySelectorAll ["progress-item"; "current"] (document st)) st)
    = cleared (classes_of el st).
Proof.
  rewrite classes_of_remove_class_each. unfold cleared.
  pose proof (elem_of_progress_current el st) as Hsel.
  case_bool_decide as Hin.
  - apply Hsel in Hin. by rewrite Hin.
  - destruct (_ && _); [|done]. exfalso. by apply Hin, Hsel.
Qed.

Lemma contains_cleared x classes :
  x ≠ "current" →
  Dom.contains x (cleared classes) = Dom.contains x classes.
Proof.
  intros Hne. unfold cleared. destruct (_ && _); [|done].
  by apply contains_remove_ne.
Qed.

(** ** setCurrent *)

(** C9 (amended). [setCurrent(id)] first removes "current" from every element
    that carries both "progress-item" and "current" (an element with
    "current" but without "progress-item" keeps it), and then adds "current"
    to the element with identifier [id] if it exists and is not marked
    "completed"; if it is absent or marked "completed", no element gains
    "current".  Nothing but class lists changes. *)
Theorem setCurrent_spec (st : State) (itemId : string) :
  let target := Dom.getElementById itemId (document st) in
  (∀ el,
     classes_of el (setCurrent itemId st)
       = if bool_decide (target = Some el)
            && negb (Dom.contains "completed" (classes_of el st))
         then Dom.add "current" (cleared (classes_of el st))
         else cleared (classes_of el st))
  ∧ (∀ el, Dom.contains "progress-item" (classes_of el st) = true →
           "current" ∉ cleared (classes_of el st))
  ∧ (∀ el, Dom.contains "progress-item" (classes_of el st) = false →
           cleared (classes_of el st) = classes_of el st)
  ∧ ((target = None
      ∨ ∃ item, target = Some item ∧ "completed" ∈ classes_of item st) →
     ∀ el, "current" ∈ classes_of el (setCurrent itemId st) →
           "current" ∈ classes_of el st)
  ∧ same_core st (setCurrent itemId st)
  ∧ trace (setCurrent itemId st) = trace st.
Proof.
  intros target.
  assert (∀ el,
     classes_of el (setCurrent itemId st)
       = if bool_decide (target = Some el)
            && negb (Dom.contains "completed" (classes_of el st))
         then Dom.add "current" (cleared (classes_of el st))
         else cleared (classes_of el st)) as Hcls.
  { intros el. unfold setCurrent.
    rewrite getElementById_remove_class_each. fold target.
    destruct target as [item|] eqn:Ht; [|apply classes_of_cleared].
    rewrite (classes_of_cleared item), contains_cleared by done.
    destruct (decide (item = el)) as [->|Hne].
    - rewrite bool_decide_eq_true_2 by done. simpl.
      destruct (Dom.contains "completed" (classes_of el st)); simpl.
      + apply classes_of_cleared.
      + rewrite classes_of_edit_valid, classes_of_cleared; [done|].
        apply is_Some_remove_class_each.
        by apply (getElementById_is_Some itemId).
    - rewrite bool_decide_eq_false_2 by congruence. simpl.
      destruct (Dom.contains "completed" (classes_of item st)).
      + apply classes_of_cleared.
      + rewrite classes_of_edit_ne by done. apply classes_of_cleared. }
  split; [exact Hcls|]. split; [|split; [|split; [|split]]].
  - intros el Hp. unfold cleared. rewrite Hp. simpl.
    destruct (Dom.contains "current" (classes_of el st)) eqn:Hc.
    + rewrite elem_of_remove. by intros [_ ?].
    + intros Hin. apply contains_true in Hin. congruence.
  - intros el Hp. unfold cleared. by rewrite Hp.
  - intros Hno el. rewrite Hcls.
    assert (bool_decide (target = Some el)
              && negb (Dom.contains "completed" (classes_of el st)) = false)
      as ->.
    { destruct Hno as [->|(item & -> & Hdone)]; [done|].
      case_bool_decide as Heq; [|done]. injection Heq as ->.
      apply contains_true in Hdone. by rewrite Hdone. }
    unfold cleared. destruct (_ && _); [|done].
    rewrite elem_of_remove. by intros [? _].
  - apply same_core_setCurrent.
  - unfold setCurrent.
    assert (∀ c nodes s, trace (remove_class_each c nodes s) = trace s) as Htr.
    { intros c nodes. unfold remove_class_each.
      induction nodes as [|x nodes IH]; intros s; simpl; [done|].
      by rewrite IH. }
    repeat case_match; simpl; by rewrite Htr.
Qed.

(** ** Operations on a missing element *)

(** C6 (amended). When the identifier resolves to no element, [startTimer],
    [revealAnswer], [hideAnswer], [markComplete], [animateMerkleTree],
    [resetMerkleAnimation], [highlightBug] and [clearBugHighlights] change
    nothing at all: the script's variables, the live intervals, the document
    and the trace (so nothing is logged) stay as they are.  [resetTimer]
    still stops the timer, and changes nothing else; [setCurrent] still
    clears "current" on the current progress items, and changes nothing
    else. *)
Theorem missing_target (st : State) (id : string) (seconds line : Z)
    (cb : option Callback) :
  Dom.getElementById id (document st) = None →
  startTimer id seconds cb st = st
  ∧ revealAnswer id st = st
  ∧ hideAnswer id st = st
  ∧ markComplete id st = st
  ∧ animateMerkleTree id st = st
  ∧ resetMerkleAnimation id st = st
  ∧ highlightBug id line st = st
  ∧ clearBugHighlights id st = st
  ∧ resetTimer id seconds st = stopTimer st
  ∧ resetTimer id seconds st
      = set_timerInterval None (clearInterval (timerInterval st) st)
  ∧ (timerInterval st = None → resetTimer id seconds st = st)
  ∧ setCurrent id st
      = remove_class_each "current"
          (Dom.querySelectorAll ["progress-item"; "current"] (document st)) st
  ∧ (∀ el, classes_of el (setCurrent id st) = cleared (classes_of el st))
  ∧ same_core st (setCurrent id st)
  ∧ trace (setCurrent id st) = trace st
  ∧ merkleAnimationStep (setCurrent id st) = merkleAnimationStep st
  ∧ (Dom.querySelectorAll ["progress-item"; "current"] (document st) = [] →
       setCurrent id st = st).
Proof.
  intros Hnone.
  assert (resetTimer id seconds st = stopTimer st) as Hreset.
  { unfold resetTimer.
    destruct (stopTimer_core st) as (_ & _ & _ & _ & ->). by rewrite Hnone. }
  assert (setCurrent id st
      = remove_class_each "current"
          (Dom.querySelectorAll ["progress-item"; "current"] (document st)) st)
    as Hcur.
  { unfold setCurrent. by rewrite getElementById_remove_class_each, Hnone. }
  assert (∀ c nodes s,
            trace (remove_class_each c nodes s) = trace s
            ∧ merkleAnimationStep (remove_class_each c nodes s)
                = merkleAnimationStep s) as Hframe.
  { intros c nodes. unfold remove_class_each.
    induction nodes as [|x nodes IH]; intros s; simpl; [done|].
    destruct (IH (edit_classList x (Dom.remove c) s)) as [-> ->]. done. }
  unfold startTimer, revealAnswer, hideAnswer, markComplete,
    animateMerkleTree, resetMerkleAnimation, highlightBug, clearBugHighlights.
  rewrite Hnone, Hreset, Hcur. repeat split; try done.
  - by destruct st as [doc ivs nh tr [h|] secs sc ms].
  - unfold stopTimer. by intros ->.
  - intros el. apply classes_of_cleared.
  - apply same_core_remove_class_each.
  - apply same_core_remove_class_each.
  - apply same_core_remove_class_each.
  - apply same_core_remove_class_each.
  - apply same_core_remove_class_each.
  - apply Hframe.
  - apply Hframe.
  - by intros ->.
Qed.

(** ** The model on a sample page *)

Section SamplePage.
#[local] Existing Instance sample_ops.

Example five_seconds_trace :
  trace (ticks 5%nat 1%positive five_seconds)
    = [ EvText 0%nat "0:05"; EvText 0%nat "0:04"; EvText 0%nat "0:03"; EvText 0%nat "0:02";
        EvText 0%nat "0:01"; EvText 0%nat "0:00"; EvText 0%nat "TIME'S UP!"; EvInvoke 7%nat ].
Proof. vm_compute. reflexivity. Qed.

Example restart_cancels_previous :
  let st := startTimer "timer" 9 None (ticks 2%nat 1%positive five_seconds) in
  live_timers st = [2%positive]
  ∧ timerSeconds (fire 1%positive st) = 9
  ∧ timerSeconds (fire 2%positive st) = 8.
Proof. vm_compute. repeat split; reflexivity. Qed.

Example timer_text_samples :
  timer_text 125 = "2:05" ∧ timer_text 59 = "0:59" ∧ timer_text 600 = "10:00".
Proof. vm_compute. repeat split; reflexivity. Qed.





(** C1 as stated fails: JavaScript numbers are doubles, and a score of 2^53
    to which 1 is added is still 2^53. *)
Lemma large_score_is_rounded :
  let st := run [Invoke (SetScore "hacker" 9007199254740992)]
              (init sample_page) in
  let st' := run [Invoke (UpdateScore "hacker" 1)] st in
  known_team "hacker"
  ∧ score_of "hacker" st = 9007199254740992
  ∧ score_of "hacker" st' = 9007199254740992
  ∧ score_of "hacker" st' ≠ score_of "hacker" st + 1.
Proof.
  split; [by left|]. vm_compute.
  split; [reflexivity|split; [reflexivity|discriminate]].
Qed.

Lemma missing_target_witness :
  startTimer "absent" 5 None one_minute = one_minute
  ∧ highlightBug "absent" 3 one_minute = one_minute
  ∧ resetTimer "absent" 5 one_minute = stopTimer one_minute.
Proof.
  destruct (missing_target one_minute "absent" 5 3 None)
    as (Hstart & _ & _ & _ & _ & _ & Hbug & _ & Hreset & _); [reflexivity|].
  split; [exact Hstart|]. split; [exact Hbug | exact Hreset].
Defined.

(** C6 as stated fails: with no element "absent" on the page, [resetTimer]
    still stops the running countdown, and [setCurrent] still clears the
    current progress item. *)
Lemma missing_target_still_acts :
  Dom.getElementById "absent" (document one_minute) = None
  ∧ timerInterval one_minute = Some 1%positive
  ∧ live_timers one_minute = [1%positive]
  ∧ timerInterval (resetTimer "absent" 60 one_minute) = None
  ∧ live_timers (resetTimer "absent" 60 one_minute) = []
  ∧ resetTimer "absent" 60 one_minute ≠ one_minute
  ∧ classes_of 1%nat one_minute = ["progress-item"; "current"]
  ∧ classes_of 1%nat (setCurrent "absent" one_minute) = ["progress-item"]
  ∧ setCurrent "absent" one_minute ≠ one_minute.
Proof.
  repeat split; try (vm_compute; reflexivity).
  - intros Heq. apply (f_equal timerInterval) in Heq.
    vm_compute in Heq. discriminate.
  - intros Heq. apply (f_equal (classes_of 1%nat)) in Heq.
    vm_compute in Heq. discriminate.
Qed.

(** C9 as stated fails: the element "note" carries "current" without being a
    progress item, and keeps it when another item is made current. *)
Lemma current_outside_progress_items_stays :
  let st := init sample_page in
  Dom.getElementById "note" (document st) = Some 3%nat
  ∧ Dom.getElementById "setup" (document st) = Some 2%nat
  ∧ classes_of 3%nat st = ["current"]
  ∧ classes_of 3%nat (setCurrent "setup" st) = ["current"]
  ∧ classes_of 2%nat (setCurrent "setup" st) = ["progress-item"; "current"]
  ∧ classes_of 1%nat (setCurrent "setup" st) = ["progress-item"].
Proof. vm_compute. repeat split; reflexivity. Qed.

Lemma remaining_seconds_nonneg_witness :
  let st := run sample_session (init sample_page) in
  0 ≤ timerSeconds st ∧ (live_timers st ≠ [] → 1 ≤ timerSeconds st).
Proof. apply (remaining_seconds_nonneg sample_page sample_session). reflexivity. Defined.

(** C5 as stated fails: a countdown started with zero seconds is decremented
    once, to -1, before it is seen to have run out. *)
Lemma zero_start_goes_negative :
  let inputs := [Invoke (StartTimer "timer" 0 None); Fire 1] in
  forallb (input_seconds_from 0) inputs = true
  ∧ timerSeconds (run inputs (init sample_page)) = -1.
Proof. vm_compute. split; reflexivity. Qed.

End SamplePage.

(** * Further properties *)

(** ** Class edits, element by element *)

Lemma repeated_S n f st : repeated (S n) f st = f (repeated n f st).
Proof. reflexivity. Qed.

Lemma add_add c cl : Dom.add c (Dom.add c cl) = Dom.add c cl.
Proof.
  unfold Dom.add at 2 3. destruct (Dom.contains c cl) eqn:E.
  - unfold Dom.add. by rewrite E.
  - unfold Dom.add.
    assert (Dom.contains c (cl ++ [c]) = true) as ->; [|done].
    apply contains_true, elem_of_app. right. by left.
Qed.

Lemma remove_add c cl : Dom.remove c (Dom.add c cl) = Dom.remove c cl.
Proof.
  unfold Dom.add. destruct (Dom.contains c cl); [done|].
  unfold Dom.remove. rewrite filter_app, filter_cons_False, filter_nil.
  - apply app_nil_r.
  - by intros ?.
Qed.

Lemma remove_absent c cl : c ∉ cl → Dom.remove c cl = cl.
Proof.
  intros Hc. unfold Dom.remove. induction cl as [|x cl IH]; [done|].
  rewrite filter_cons_True.
  - f_equal. apply IH. intros ?. apply Hc. by right.
  - intros ->. apply Hc. by left.
Qed.

Lemma elem_of_add c x cl : x ∈ Dom.add c cl ↔ x ∈ cl ∨ x = c.
Proof.
  unfold Dom.add. destruct (Dom.contains c cl) eqn:E.
  - apply contains_true in E. split; [auto|]. by intros [?| ->].
  - rewrite elem_of_app, list_elem_of_singleton. tauto.
Qed.

Lemma contains_add_ne x c cl :
  x ≠ c → Dom.contains x (Dom.add c cl) = Dom.contains x cl.
Proof.
  intros Hne. unfold Dom.contains. apply bool_decide_ext.
  rewrite elem_of_add. split; [|auto]. by intros [?|?].
Qed.

(** A state whose document alone was replaced. *)
Lemma set_document_id st : set_document (document st) st = st.
Proof. by destruct st. Qed.

Lemma edit_each_state (f : list string → list string) nodes st :
  foldl (λ st n, edit_classList n f st) st nodes
    = set_document
        (document (foldl (λ st n, edit_classList n f st) st nodes)) st.
Proof.
  revert st. induction nodes as [|n nodes IH]; intros st; simpl.
  - by rewrite set_document_id.
  - rewrite IH at 1. reflexivity.
Qed.

Lemma lookup_edit_each (f : list string → list string) nodes st el :
  (∀ cl, f (f cl) = f cl) →
  document (foldl (λ st n, edit_classList n f st) st nodes) !! el
    = (if bool_decide (el ∈ nodes) then Dom.with_classList f else id)
        <$> (document st !! el).
Proof.
  intros Hf. revert st. induction nodes as [|n nodes IH]; intros st; simpl.
  - by destruct (document st !! el).
  - rewrite IH. unfold edit_classList at 1. simpl.
    destruct (decide (n = el)) as [->|Hne].
    + rewrite list_lookup_alter_eq.
      rewrite (bool_decide_eq_true_2 (el ∈ el :: nodes)) by by left.
      destruct (document st !! el) as [e|]; simpl; [|by case_bool_decide].
      case_bool_decide; [|done]. simpl. f_equal.
      destruct e; unfold Dom.with_classList; simpl. by rewrite Hf.
    + rewrite list_lookup_alter_ne by done.
      assert (bool_decide (el ∈ n :: nodes) = bool_decide (el ∈ nodes)) as ->;
        [|done].
      apply bool_decide_ext. rewrite elem_of_cons. split; [|auto].
      by intros [->|?].
Qed.

Lemma classes_of_edit_each (f : list string → list string) nodes st el :
  (∀ cl, f (f cl) = f cl) →
  (∀ n, n ∈ nodes → is_Some (document st !! n)) →
  classes_of el (foldl (λ st n, edit_classList n f st) st nodes)
    = if bool_decide (el ∈ nodes) then f (classes_of el st)
      else classes_of el st.
Proof.
  intros Hf Hvalid. unfold classes_of. rewrite lookup_edit_each by done.
  case_bool_decide as Hin.
  - destruct (Hvalid el Hin) as [e ->]. done.
  - by destruct (document st !! el).
Qed.

(** ** Descendants *)

Lemma elem_of_descendants i doc el :
  el ∈ descendants i doc →
  (i < el)%nat ∧ is_Some (doc !! i) ∧ is_Some (doc !! el).
Proof.
  unfold descendants. destruct (doc !! i) as [e|] eqn:He; [|by intros ?%elem_of_nil].
  rewrite elem_of_seq. intros [Hlo Hhi]. split; [lia|]. split; [done|].
  apply lookup_lt_is_Some.
  assert (Dom.subtree_length (el_depth e) (drop (S i) doc)
            ≤ length (drop (S i) doc))%nat as Hlen.
  { generalize (drop (S i) doc). intros l.
    induction l as [|x l IH]; simpl; [lia|]. case_match; simpl; lia. }
  rewrite length_drop in Hlen. lia.
Qed.

Lemma elem_of_querySelectorAll_in i c doc el :
  el ∈ Dom.querySelectorAll_in i c doc
  ↔ el ∈ descendants i doc
    ∧ ∃ e, doc !! el = Some e ∧ Dom.has_class c e = true.
Proof.
  unfold Dom.querySelectorAll_in, descendants.
  destruct (doc !! i) as [ei|] eqn:Hi.
  2:{ rewrite elem_of_nil. split; [done|]. by intros [? _]. }
  rewrite elem_of_select_from, elem_of_seq. simpl. split.
  - intros (Hle & e & He & Hc).
    apply lookup_take_Some in He as [He Hlt]. rewrite lookup_drop in He.
    replace (S i + (el - S i))%nat with el in He by lia.
    split; [lia|]. exists e. split; [done|]. by rewrite andb_true_r in Hc.
  - intros ([Hlo Hhi] & e & He & Hc). split; [lia|]. exists e. split.
    + apply lookup_take_Some. split; [|lia]. rewrite lookup_drop.
      by replace (S i + (el - S i))%nat with el by lia.
    + by rewrite andb_true_r.
Qed.

Lemma NoDup_select_from i cs doc : NoDup (Dom.select_from i cs doc).
Proof.
  revert i. induction doc as [|x doc IH]; intros i; simpl; [constructor|].
  case_match; [|apply IH]. constructor; [|apply IH].
  rewrite elem_of_select_from. intros [? _]. lia.
Qed.

Lemma NoDup_querySelectorAll_in i c doc :
  NoDup (Dom.querySelectorAll_in i c doc).
Proof.
  unfold Dom.querySelectorAll_in. case_match; [|constructor].
  apply NoDup_select_from.
Qed.

Lemma same_shape_refl c doc : same_shape c doc doc.
Proof. apply Forall2_same_length_lookup. split; [done|]. by intros i e e' -> [= ->]. Qed.

Lemma same_shape_trans c doc1 doc2 doc3 :
  same_shape c doc1 doc2 → same_shape c doc2 doc3 → same_shape c doc1 doc3.
Proof.
  unfold same_shape. intros H12 H23. revert doc3 H23.
  induction H12 as [|e1 e2 l1 l2 [Hd Hc] _ IH]; intros doc3 H23;
    inversion H23 as [|? e3 ? l3 [Hd' Hc'] H23']; subst; constructor.
  - split; congruence.
  - by apply IH.
Qed.

Lemma same_shape_edit c (f : list string → list string) n doc :
  (∀ cl, Dom.contains c (f cl) = Dom.contains c cl) →
  same_shape c doc (alter (Dom.with_classList f) n doc).
Proof.
  intros Hf. apply Forall2_alter_r; [apply same_shape_refl|].
  intros e e' He He' [Hd Hc]. split; [done|].
  rewrite Hc. unfold Dom.has_class. simpl. by rewrite Hf.
Qed.

Lemma same_shape_edit_each c (f : list string → list string) nodes st :
  (∀ cl, Dom.contains c (f cl) = Dom.contains c cl) →
  same_shape c (document st)
    (document (foldl (λ st n, edit_classList n f st) st nodes)).
Proof.
  intros Hf. revert st. induction nodes as [|n nodes IH]; intros st; simpl.
  - apply same_shape_refl.
  - eapply same_shape_trans; [|apply IH]. simpl. by apply same_shape_edit.
Qed.

Lemma same_shape_select_from c i doc doc' :
  same_shape c doc doc' →
  Dom.select_from i [c] doc = Dom.select_from i [c] doc'.
Proof.
  intros Hs. revert i. induction Hs as [|e e' l l' [Hd Hc] _ IH]; intros i;
    [done|].
  simpl. rewrite Hc, !andb_true_r. by rewrite (IH (S i)).
Qed.

Lemma same_shape_subtree_length c d doc doc' :
  same_shape c doc doc' →
  Dom.subtree_length d doc = Dom.subtree_length d doc'.
Proof.
  intros Hs. induction Hs as [|e e' l l' [Hd Hc] _ IH]; [done|].
  simpl. by rewrite Hd, IH.
Qed.

Lemma same_shape_querySelectorAll_in c i doc doc' :
  same_shape c doc doc' →
  Dom.querySelectorAll_in i c doc = Dom.querySelectorAll_in i c doc'.
Proof.
  intros Hs. unfold Dom.querySelectorAll_in.
  destruct (doc !! i) as [e|] eqn:He.
  - destruct (Forall2_lookup_l _ _ _ _ _ Hs He) as (e' & -> & Hd & _).
    rewrite Hd.
    assert (same_shape c (drop (S i) doc) (drop (S i) doc')) as Hdrop
      by by apply Forall2_drop.
    rewrite (same_shape_subtree_length c _ _ _ Hdrop).
    apply same_shape_select_from. by apply Forall2_take.
  - assert (doc' !! i = None) as ->; [|done].
    apply lookup_ge_None. apply lookup_ge_None in He.
    by rewrite <- (Forall2_length _ _ _ Hs).
Qed.

Lemma same_shape_descendants c i doc doc' :
  same_shape c doc doc' → descendants i doc = descendants i doc'.
Proof.
  intros Hs. unfold descendants.
  destruct (doc !! i) as [e|] eqn:He.
  - destruct (Forall2_lookup_l _ _ _ _ _ Hs He) as (e' & -> & Hd & _).
    rewrite Hd. f_equal.
    apply (same_shape_subtree_length c). by apply Forall2_drop.
  - assert (doc' !! i = None) as ->; [|done].
    apply lookup_ge_None. apply lookup_ge_None in He.
    by rewrite <- (Forall2_length _ _ _ Hs).
Qed.

Lemma edit_by_id_ext id f g st :
  (∀ cl, f cl = g cl) → edit_by_id id f st = edit_by_id id g st.
Proof.
  intros Hfg. unfold edit_by_id. case_match; [|done].
  unfold edit_classList. f_equal. apply list_alter_ext; [|done].
  intros e _. destruct e; unfold Dom.with_classList; simpl. by rewrite Hfg.
Qed.

Lemma edit_by_id_compose id f g st :
  edit_by_id id f (edit_by_id id g st) = edit_by_id id (f ∘ g) st.
Proof.
  unfold edit_by_id.
  destruct (Dom.getElementById id (document st)) as [el|] eqn:Hel.
  - rewrite getElementById_edit_classList, Hel.
    unfold edit_classList, set_document. simpl. f_equal.
    rewrite list_alter_alter_eq. by apply list_alter_ext.
  - by rewrite Hel.
Qed.

Lemma edit_classList_fixed el f st :
  f (classes_of el st) = classes_of el st → edit_classList el f st = st.
Proof.
  intros Hf. unfold edit_classList.
  transitivity (set_document (document st) st); [|apply set_document_id].
  f_equal. apply list_eq. intros i. destruct (decide (el = i)) as [->|Hne].
  - rewrite list_lookup_alter_eq. unfold classes_of in Hf.
    destruct (document st !! i) as [e|]; [|done]. simpl in *.
    destruct e; unfold Dom.with_classList; simpl in *. by rewrite Hf.
  - by rewrite list_lookup_alter_ne.
Qed.

(** ** Revealing and hiding an answer *)

(** X1. [revealAnswer] and [hideAnswer] are idempotent, hiding after
    revealing is hiding, and on an answer that was not revealed the pair
    restores the page exactly. *)
Theorem reveal_hide_compose (st : State) (id : string) :
  revealAnswer id (revealAnswer id st) = revealAnswer id st
  ∧ hideAnswer id (hideAnswer id st) = hideAnswer id st
  ∧ hideAnswer id (revealAnswer id st) = hideAnswer id st
  ∧ (∀ el, Dom.getElementById id (document st) = Some el →
           ("revealed" ∈ classes_of el (revealAnswer id st))
           ∧ ("revealed" ∉ classes_of el (hideAnswer id st))
           ∧ ("revealed" ∉ classes_of el st →
              hideAnswer id (revealAnswer id st) = st)).
Proof.
  change (revealAnswer id) with (edit_by_id id (Dom.add "revealed")).
  change (hideAnswer id) with (edit_by_id id (Dom.remove "revealed")).
  rewrite !edit_by_id_compose.
  split; [apply edit_by_id_ext; intros cl; apply add_add|].
  split; [apply edit_by_id_ext; intros cl; apply remove_remove|].
  split; [apply edit_by_id_ext; intros cl; apply remove_add|].
  intros el Hel. pose proof (getElementById_is_Some _ _ _ Hel) as Hval.
  unfold edit_by_id. rewrite Hel, !classes_of_edit_valid by done.
  split; [apply elem_of_add; by right|].
  split; [rewrite elem_of_remove; by intros [_ ?]|].
  intros Hnot. apply edit_classList_fixed. simpl.
  by rewrite remove_add, remove_absent.
Qed.

(** ** Revealing all answers of a slide *)

Lemma querySelectorAll_in_valid i c doc n :
  n ∈ Dom.querySelectorAll_in i c doc → is_Some (doc !! n).
Proof.
  intros Hn. apply elem_of_querySelectorAll_in in Hn as [Hd _].
  by apply elem_of_descendants in Hd as (_ & _ & ?).
Qed.

(** X2. [revealAllAnswers] marks as revealed exactly the elements inside the
    current slide that carry "reveal-answer"; every other element keeps its
    classes, nothing but class lists changes, a second call changes nothing
    more, and without a current slide nothing happens. *)
Theorem revealAllAnswers_scope (st : State) (slide : nat) :
  let st' := revealAllAnswers (Some slide) st in
  (∀ el,
     classes_of el st'
       = if bool_decide (el ∈ descendants slide (document st))
            && Dom.contains "reveal-answer" (classes_of el st)
         then Dom.add "revealed" (classes_of el st)
         else classes_of el st)
  ∧ same_core st st'
  ∧ trace st' = trace st
  ∧ revealAllAnswers (Some slide) st' = st'
  ∧ revealAllAnswers None st = st.
Proof.
  intros st'.
  assert (∀ el,
     classes_of el st'
       = if bool_decide (el ∈ descendants slide (document st))
            && Dom.contains "reveal-answer" (classes_of el st)
         then Dom.add "revealed" (classes_of el st)
         else classes_of el st) as Hcls.
  { intros el. subst st'. unfold revealAllAnswers, add_class_each.
    rewrite classes_of_edit_each;
      [|apply add_add|intros n; apply querySelectorAll_in_valid].
    pose proof (elem_of_querySelectorAll_in slide "reveal-answer"
                  (document st) el) as Hin.
    unfold classes_of, Dom.has_class in *.
    case_bool_decide as Hq.
    - apply Hin in Hq as (Hd & e & -> & Hc). simpl.
      by rewrite bool_decide_eq_true_2, Hc.
    - case_bool_decide as Hd; [|done]. simpl.
      destruct (document st !! el) as [e|] eqn:He; simpl; [|done].
      destruct (Dom.contains "reveal-answer" (classList e)) eqn:Hc; [|done].
      exfalso. apply Hq, Hin. split; [done|]. by exists e. }
  assert (st' = set_document (document st') st) as Hst
    by apply edit_each_state.
  split; [exact Hcls|]. split; [rewrite Hst; by repeat split|].
  split; [by rewrite Hst|]. split; [|done].
  unfold revealAllAnswers, add_class_each.
  rewrite edit_each_state.
  transitivity (set_document (document st') st'); [|apply set_document_id].
  f_equal. apply list_eq. intros el.
  rewrite lookup_edit_each by apply add_add.
  case_bool_decide as Hq; [|by destruct (document st' !! el)].
  apply elem_of_querySelectorAll_in in Hq as (Hd & e & He & Hc).
  rewrite He. simpl. f_equal.
  assert (same_shape "reveal-answer" (document st) (document st')) as Hshape.
  { subst st'. apply same_shape_edit_each. intros cl.
    by apply contains_add_ne. }
  rewrite <- (same_shape_descendants _ slide _ _ Hshape) in Hd.
  assert (classes_of el st' = classList e) as Hce
    by (unfold classes_of; by rewrite He).
  assert ("revealed" ∈ classList e) as Hrev.
  { unfold Dom.has_class in Hc. rewrite <- Hce in *.
    rewrite Hcls, bool_decide_eq_true_2 in Hc |- * by done. simpl in *.
    destruct (Dom.contains "reveal-answer" (classes_of el st)) eqn:Hra.
    - apply elem_of_add. by right.
    - congruence. }
  destruct e; unfold Dom.with_classList; simpl in *. f_equal.
  unfold Dom.add. by rewrite (proj2 (contains_true _ _) Hrev).
Qed.

(** ** Bug highlighting *)

Lemma with_classList_fixed f e :
  f (classList e) = classList e → Dom.with_classList f e = e.
Proof. intros Hf. destruct e; unfold Dom.with_classList; simpl in *. by rewrite Hf. Qed.

(** Removing the class [c] from the descendants of [block] that carry it is
    removing it from all descendants of [block]. *)
Lemma lookup_remove_in_block c block st el :
  document
    (remove_class_each c
       (Dom.querySelectorAll_in block c (document st)) st) !! el
    = (if bool_decide (el ∈ descendants block (document st))
       then Dom.with_classList (Dom.remove c) else id)
        <$> (document st !! el).
Proof.
  unfold remove_class_each. rewrite lookup_edit_each by apply remove_remove.
  pose proof (elem_of_querySelectorAll_in block c (document st) el) as Hin.
  destruct (document st !! el) as [e|] eqn:He; [|by repeat case_bool_decide].
  simpl. f_equal. case_bool_decide as Hq.
  - apply Hin in Hq as [Hd _]. by rewrite bool_decide_eq_true_2.
  - case_bool_decide as Hd; [|done]. simpl.
    symmetry. apply with_classList_fixed, remove_absent.
    intros Hc. apply Hq, Hin. split; [done|]. exists e. split; [done|].
    by apply contains_true.
Qed.

Lemma classes_of_lookup el st e :
  document st !! el = Some e → classes_of el st = classList e.
Proof. intros He. unfold classes_of. by rewrite He. Qed.

(** X3. [highlightBug] with a line number below 1 or beyond the last line of
    the block changes nothing; otherwise it adds "bug-highlight" to that
    line, counted from 1 among the block's "code-line" descendants, and to
    no other element. *)
Theorem highlightBug_line (st : State) (id : string) (block : nat) (line : Z) :
  Dom.getElementById id (document st) = Some block →
  let lines := Dom.querySelectorAll_in block "code-line" (document st) in
  let st' := highlightBug id line st in
  ((line < 1 ∨ Z.of_nat (length lines) < line) → st' = st)
  ∧ (∀ target, 1 ≤ line → lines !! Z.to_nat (line - 1) = Some target →
       ∀ el, classes_of el st'
             = if decide (el = target)
               then Dom.add "bug-highlight" (classes_of el st)
               else classes_of el st)
  ∧ same_core st st'
  ∧ trace st' = trace st.
Proof.
  intros Hb lines st'. subst st'. unfold highlightBug. rewrite Hb.
  fold lines. split; [|split; [|split]].
  - intros Hout. destruct (Z.ltb_spec (line - 1) 0) as [Hneg|Hpos]; [done|].
    destruct Hout as [Hlo|Hhi]; [lia|].
    rewrite (proj2 (lookup_ge_None lines (Z.to_nat (line - 1)))); [done|lia].
  - intros target Hline Htarget el.
    destruct (Z.ltb_spec (line - 1) 0) as [Hneg|Hpos]; [lia|].
    rewrite Htarget.
    assert (is_Some (document st !! target)) as Hval.
    { apply (querySelectorAll_in_valid block "code-line").
      by apply list_elem_of_lookup_2 in Htarget. }
    case_decide as Heq.
    + subst. by apply classes_of_edit_valid.
    + by apply classes_of_edit_ne.
  - repeat case_match; auto with core_frame.
  - by repeat case_match.
Qed.

Lemma highlightBug_cases st id block line :
  Dom.getElementById id (document st) = Some block →
  highlightBug id line st = st
  ∨ ∃ target, target ∈ descendants block (document st)
              ∧ highlightBug id line st
                  = edit_classList target (Dom.add "bug-highlight") st.
Proof.
  intros Hb. unfold highlightBug. rewrite Hb.
  case_match; [by left|].
  destruct (_ !! Z.to_nat (line - 1)) as [target|] eqn:Ht; [|by left].
  right. exists target. split; [|done].
  apply list_elem_of_lookup_2 in Ht.
  by apply elem_of_querySelectorAll_in in Ht as [? _].
Qed.

Lemma descendants_edit_classList block el f st :
  descendants block (document (edit_classList el f st))
    = descendants block (document st).
Proof.
  unfold descendants, edit_classList. simpl.
  destruct (decide (el = block)) as [->|Hne].
  - rewrite list_lookup_alter_eq.
    destruct (document st !! block) as [e|]; simpl; [|done].
    f_equal. by rewrite drop_alter_lt by lia.
  - rewrite list_lookup_alter_ne by done.
    destruct (document st !! block) as [e|]; [|done]. f_equal.
    generalize (el_depth e). intros d.
    destruct (decide (el < S block)%nat) as [Hlt|Hge];
      [by rewrite drop_alter_lt by lia|].
    rewrite drop_alter_ge by lia.
    generalize (el - S block)%nat, (drop (S block) (document st)).
    intros n l. revert n. induction l as [|x l IH]; intros n; [done|].
    destruct n as [|n]; simpl; [done|].
    specialize (IH n). unfold alter in IH. by rewrite IH.
Qed.

(** X4. [clearBugHighlights] removes "bug-highlight" from every descendant
    of the block and touches no element outside it; highlighting a line of
    the block and then clearing is the same as clearing. *)
Theorem clearBugHighlights_clears (st : State) (id : string) (block : nat) :
  Dom.getElementById id (document st) = Some block →
  let st' := clearBugHighlights id st in
  (∀ el, classes_of el st'
         = if bool_decide (el ∈ descendants block (document st))
           then Dom.remove "bug-highlight" (classes_of el st)
           else classes_of el st)
  ∧ (∀ el, el ∈ descendants block (document st) →
           "bug-highlight" ∉ classes_of el st')
  ∧ same_core st st'
  ∧ (∀ line, clearBugHighlights id (highlightBug id line st) = st').
Proof.
  intros Hb st'.
  assert (∀ el, classes_of el st'
                = if bool_decide (el ∈ descendants block (document st))
                  then Dom.remove "bug-highlight" (classes_of el st)
                  else classes_of el st) as Hcls.
  { intros el. subst st'. unfold clearBugHighlights. rewrite Hb.
    unfold classes_of. rewrite lookup_remove_in_block.
    destruct (document st !! el); by case_bool_decide. }
  split; [exact Hcls|]. split; [|split].
  - intros el Hd. rewrite Hcls, bool_decide_eq_true_2 by done.
    rewrite elem_of_remove. by intros [_ ?].
  - apply same_core_clearBugHighlights.
  - intros line. subst st'.
    destruct (highlightBug_cases st id block line Hb)
      as [->|(target & Hdesc & ->)]; [done|].
    unfold clearBugHighlights.
    rewrite getElementById_edit_classList, Hb.
    set (hl := edit_classList target (Dom.add "bug-highlight") st).
    unfold remove_class_each.
    rewrite (edit_each_state _ _ st), (edit_each_state _ _ hl).
    change (set_document ?d hl) with (set_document d st).
    f_equal. apply list_eq. intros el.
    pose proof (lookup_remove_in_block "bug-highlight" block st el) as H1.
    pose proof (lookup_remove_in_block "bug-highlight" block hl el) as H2.
    unfold remove_class_each in H1, H2. rewrite H1, H2. clear H1 H2.
    subst hl. rewrite descendants_edit_classList.
    unfold edit_classList at 1. simpl.
    destruct (decide (target = el)) as [->|Hne].
    + rewrite list_lookup_alter_eq, bool_decide_eq_true_2 by done.
      destruct (document st !! el) as [e|]; simpl; [|done]. f_equal.
      destruct e; unfold Dom.with_classList; simpl. by rewrite remove_add.
    + by rewrite list_lookup_alter_ne.
Qed.

(** ** Merkle tree animation *)

Lemma animateMerkleTree_step st id container :
  Dom.getElementById id (document st) = Some container →
  animateMerkleTree id st
    = match Dom.querySelectorAll_in container "merkle-step" (document st)
            !! merkleAnimationStep st with
      | Some el =>
          set_merkleAnimationStep (S (merkleAnimationStep st))
            (edit_classList el (Dom.add "visible") st)
      | None => st
      end.
Proof. intros Hc. unfold animateMerkleTree. by rewrite Hc. Qed.

Lemma repeated_animateMerkleTree st id container n :
  Dom.getElementById id (document st) = Some container →
  let steps := Dom.querySelectorAll_in container "merkle-step" (document st) in
  let k := merkleAnimationStep st in
  let st' := repeated n (animateMerkleTree id) st in
  Dom.getElementById id (document st') = Some container
  ∧ Dom.querySelectorAll_in container "merkle-step" (document st') = steps
  ∧ merkleAnimationStep st' = Nat.max k (Nat.min (k + n) (length steps))
  ∧ (∀ el, classes_of el st'
           = if bool_decide (el ∈ take n (drop k steps))
             then Dom.add "visible" (classes_of el st)
             else classes_of el st)
  ∧ same_core st st'
  ∧ trace st' = trace st.
Proof.
  intros Hc steps k. induction n as [|n IH]; intros st'.
  - subst st'. simpl. repeat split; try done; try lia.
  - destruct IH as (Hc' & Hsteps & Hk & Hcls & Hcore & Htr).
    subst st'. rewrite repeated_S.
    set (stn := repeated n (animateMerkleTree id) st) in *.
    rewrite (animateMerkleTree_step stn id container Hc'), Hsteps, Hk.
    destruct (steps !! Nat.max k (Nat.min (k + n) (length steps)))
      as [el|] eqn:Hel.
    + apply lookup_lt_Some in Hel as Hlt.
      assert (Nat.max k (Nat.min (k + n) (length steps)) = (k + n)%nat)
        as Hidx by lia.
      rewrite Hidx in Hel.
      assert (take (S n) (drop k steps) = take n (drop k steps) ++ [el])
        as Htake.
      { rewrite (take_S_r _ _ el); [done|]. by rewrite lookup_drop. }
      assert (is_Some (document stn !! el)) as Hval.
      { apply (querySelectorAll_in_valid container "merkle-step").
        rewrite Hsteps. by apply list_elem_of_lookup_2 in Hel. }
      change (document (set_merkleAnimationStep ?m ?s)) with (document s).
      change (merkleAnimationStep (set_merkleAnimationStep ?m ?s)) with m.
      split; [by rewrite getElementById_edit_classList|].
      split.
      { rewrite <- Hsteps. symmetry.
        apply same_shape_querySelectorAll_in.
        apply (same_shape_edit "merkle-step" (Dom.add "visible")).
        intros cl. by apply contains_add_ne. }
      split; [lia|]. split; [|split].
      * intros x. rewrite Htake.
        change (classes_of x (set_merkleAnimationStep ?m ?s))
          with (classes_of x s).
        destruct (decide (el = x)) as [->|Hne].
        -- rewrite classes_of_edit_valid, Hcls by done.
           rewrite (bool_decide_eq_true_2 (x ∈ _ ++ [x]))
             by (apply elem_of_app; right; by left).
           case_bool_decide; [apply add_add | done].
        -- rewrite classes_of_edit_ne, Hcls by done.
           assert (bool_decide (x ∈ take n (drop k steps) ++ [el])
                     = bool_decide (x ∈ take n (drop k steps))) as ->;
             [|done].
           apply bool_decide_ext. rewrite elem_of_app, list_elem_of_singleton.
           split; [|auto]. intros [?|?]; [done|congruence].
      * eapply same_core_trans; [exact Hcore|]. by repeat split.
      * simpl. exact Htr.
    + apply lookup_ge_None in Hel.
      split; [done|]. split; [done|]. split; [lia|]. split; [|done].
      intros x. rewrite Hcls.
      assert (take (S n) (drop k steps) = take n (drop k steps)) as ->;
        [|done].
      rewrite !take_ge; [done| |]; rewrite length_drop; lia.
Qed.

(** X5. [n] calls of [animateMerkleTree] on a container reveal its steps in
    document order, starting at the position the shared counter holds: the
    steps at positions [k .. k+n-1] gain "visible", no other element
    changes, and the counter stops at the number of steps (a counter already
    past the last step is left alone, and nothing is revealed). *)
Theorem merkle_steps_in_order
    (st : State) (id : string) (container : nat) (n : nat) :
  Dom.getElementById id (document st) = Some container →
  let steps := Dom.querySelectorAll_in container "merkle-step" (document st) in
  let k := merkleAnimationStep st in
  let st' := repeated n (animateMerkleTree id) st in
  merkleAnimationStep st' = Nat.max k (Nat.min (k + n) (length steps))
  ∧ (∀ el, classes_of el st'
           = if bool_decide (el ∈ take n (drop k steps))
             then Dom.add "visible" (classes_of el st)
             else classes_of el st)
  ∧ (length steps ≤ k → st' = st)%nat
  ∧ same_core st st'
  ∧ trace st' = trace st.
Proof.
  intros Hc steps k st'.
  destruct (repeated_animateMerkleTree st id container n Hc)
    as (_ & _ & Hk & Hcls & Hcore & Htr).
  split; [exact Hk|]. split; [exact Hcls|]. split; [|done].
  intros Hpast. subst st'. clear Hk Hcls Hcore Htr.
  induction n as [|n IH]; [done|].
  rewrite repeated_S, IH, (animateMerkleTree_step st id container Hc).
  fold steps k. by rewrite (proj2 (lookup_ge_None steps k)).
Qed.

(** X6. After [resetMerkleAnimation] the counter is zero and no step of the
    container is visible; [n] calls of [animateMerkleTree] then leave
    exactly the first [n] steps of the container visible, and no element
    that is not a step of the container has changed. *)
Theorem merkle_reset_then_advance
    (st : State) (id : string) (container : nat) (n : nat) :
  Dom.getElementById id (document st) = Some container →
  let steps := Dom.querySelectorAll_in container "merkle-step" (document st) in
  let cleared := resetMerkleAnimation id st in
  let st' := repeated n (animateMerkleTree id) cleared in
  merkleAnimationStep cleared = O
  ∧ (∀ el, el ∈ steps → "visible" ∉ classes_of el cleared)
  ∧ merkleAnimationStep st' = Nat.min n (length steps)
  ∧ (∀ j el, steps !! j = Some el →
       ("visible" ∈ classes_of el st' ↔ (j < n)%nat))
  ∧ (∀ el, el ∉ steps → classes_of el st' = classes_of el st).
Proof.
  intros Hc steps cleared st'.
  assert (∀ el, classes_of el cleared
                = if bool_decide (el ∈ steps)
                  then Dom.remove "visible" (classes_of el st)
                  else classes_of el st) as Hcleared.
  { intros el. subst cleared. unfold resetMerkleAnimation. rewrite Hc.
    rewrite classes_of_remove_class_each. done. }
  assert (Dom.getElementById id (document cleared) = Some container) as Hc'.
  { subst cleared. unfold resetMerkleAnimation. rewrite Hc.
    by rewrite getElementById_remove_class_each. }
  assert (Dom.querySelectorAll_in container "merkle-step" (document cleared)
            = steps) as Hsteps.
  { subst cleared steps. unfold resetMerkleAnimation. rewrite Hc. symmetry.
    apply same_shape_querySelectorAll_in.
    apply (same_shape_edit_each "merkle-step" (Dom.remove "visible") _
             (set_merkleAnimationStep 0 st)).
    intros cl. by apply contains_remove_ne. }
  assert (merkleAnimationStep cleared = O) as Hzero.
  { subst cleared. unfold resetMerkleAnimation. rewrite Hc.
    pose proof (edit_each_state (Dom.remove "visible")
                  (Dom.querySelectorAll_in container "merkle-step"
                     (document (set_merkleAnimationStep 0 st)))
                  (set_merkleAnimationStep 0 st)) as Hs.
    unfold remove_class_each. by rewrite Hs. }
  destruct (repeated_animateMerkleTree cleared id container n Hc')
    as (_ & _ & Hk & Hcls & _).
  rewrite Hsteps, Hzero in Hk, Hcls. rewrite drop_0 in Hcls.
  split; [done|]. split; [|split; [|split]].
  - intros el Hel. rewrite Hcleared, bool_decide_eq_true_2 by done.
    rewrite elem_of_remove. by intros [_ ?].
  - fold st' in Hk. rewrite Hk. simpl. lia.
  - intros j el Hj. fold st' in Hcls. rewrite Hcls, Hcleared.
    assert (el ∈ steps) as Hel by by apply list_elem_of_lookup_2 in Hj.
    rewrite (bool_decide_eq_true_2 (el ∈ steps)) by done.
    case_bool_decide as Hin.
    + rewrite elem_of_add. split; [|by right].
      intros _. apply list_elem_of_lookup in Hin as [i Hi].
      apply lookup_take_Some in Hi as [Hi Hlt].
      pose proof (NoDup_querySelectorAll_in container "merkle-step"
                    (document st)) as Hnd.
      by rewrite (NoDup_lookup _ _ _ _ Hnd Hj Hi).
    + rewrite elem_of_remove. split; [by intros [_ ?]|].
      intros Hlt. exfalso. apply Hin.
      apply list_elem_of_lookup. exists j. by apply lookup_take_Some.
  - intros el Hel. fold st' in Hcls. rewrite Hcls, Hcleared.
    rewrite (bool_decide_eq_false_2 (el ∈ steps)) by done.
    rewrite bool_decide_eq_false_2; [done|].
    intros Hin. apply Hel. apply list_elem_of_lookup in Hin as [i Hi].
    apply lookup_take_Some in Hi as [Hi _].
    by apply list_elem_of_lookup_2 in Hi.
Qed.

(** ** Progress tracker *)

Lemma classes_of_setCurrent st itemId el :
  classes_of el (setCurrent itemId st)
    = if bool_decide (Dom.getElementById itemId (document st) = Some el)
         && negb (Dom.contains "completed" (classes_of el st))
      then Dom.add "current" (cleared (classes_of el st))
      else cleared (classes_of el st).
Proof.
  unfold setCurrent. rewrite getElementById_remove_class_each.
  destruct (Dom.getElementById itemId (document st)) as [item|] eqn:Ht;
    [|apply classes_of_cleared].
  rewrite (classes_of_cleared item), contains_cleared by done.
  destruct (decide (item = el)) as [->|Hne].
  - rewrite bool_decide_eq_true_2 by done. simpl.
    destruct (Dom.contains "completed" (classes_of el st)); simpl.
    + apply classes_of_cleared.
    + rewrite classes_of_edit_valid, classes_of_cleared; [done|].
      apply is_Some_remove_class_each.
      by apply (getElementById_is_Some itemId).
  - rewrite bool_decide_eq_false_2 by congruence. simpl.
    destruct (Dom.contains "completed" (classes_of item st)).
    + apply classes_of_cleared.
    + rewrite classes_of_edit_ne by done. apply classes_of_cleared.
Qed.

Lemma classes_of_markComplete st itemId item :
  Dom.getElementById itemId (document st) = Some item →
  ∀ el, classes_of el (markComplete itemId st)
        = if decide (el = item)
          then Dom.add "completed" (Dom.remove "current" (classes_of el st))
          else classes_of el st.
Proof.
  intros Hi el. unfold markComplete. rewrite Hi.
  pose proof (getElementById_is_Some _ _ _ Hi) as Hval.
  case_decide as Heq.
  - subst. rewrite !classes_of_edit_valid; [done|done|].
    by apply is_Some_alter.
  - by rewrite !classes_of_edit_ne.
Qed.

(** X7. After [setCurrent(id)] a progress item that is current is the
    element named [id], so at most one progress item is current; and an
    item that was marked complete with [markComplete(id)] is completed and
    not current, also after [setCurrent(id)]. *)
Theorem single_current_item (st : State) (itemId : string) :
  let st' := setCurrent itemId st in
  (∀ el, Dom.contains "progress-item" (classes_of el st') = true →
         "current" ∈ classes_of el st' →
         Dom.getElementById itemId (document st) = Some el
         ∧ "completed" ∉ classes_of el st')
  ∧ (∀ el1 el2,
       Dom.contains "progress-item" (classes_of el1 st') = true →
       "current" ∈ classes_of el1 st' →
       Dom.contains "progress-item" (classes_of el2 st') = true →
       "current" ∈ classes_of el2 st' →
       el1 = el2)
  ∧ (∀ item, Dom.getElementById itemId (document st) = Some item →
       (let marked := markComplete itemId st in
        "completed" ∈ classes_of item marked
        ∧ ("current" ∉ classes_of item marked)
        ∧ "completed" ∈ classes_of item (setCurrent itemId marked)
        ∧ "current" ∉ classes_of item (setCurrent itemId marked))).
Proof.
  intros st'.
  assert (∀ el, Dom.contains "progress-item" (classes_of el st') = true →
         "current" ∈ classes_of el st' →
         Dom.getElementById itemId (document st) = Some el
         ∧ "completed" ∉ classes_of el st') as Hone.
  { intros el. subst st'. rewrite classes_of_setCurrent.
    destruct (bool_decide _ && negb _) eqn:Hcond.
    - apply andb_true_iff in Hcond as [Ht Hnc].
      apply bool_decide_eq_true in Ht. apply negb_true_iff in Hnc.
      intros _ _. split; [done|].
      rewrite elem_of_add. intros [Hc|Hc]; [|done].
      apply contains_true in Hc. rewrite contains_cleared in Hc by done.
      congruence.
    - rewrite contains_cleared by done. intros Hp Hcur. exfalso.
      unfold cleared in Hcur. rewrite Hp in Hcur. simpl in Hcur.
      destruct (Dom.contains "current" (classes_of el st)) eqn:Hc.
      + apply elem_of_remove in Hcur as [_ ?]. done.
      + apply contains_true in Hcur. congruence. }
  split; [exact Hone|]. split.
  - intros el1 el2 Hp1 Hc1 Hp2 Hc2.
    destruct (Hone el1 Hp1 Hc1) as [H1 _], (Hone el2 Hp2 Hc2) as [H2 _].
    congruence.
  - intros item Hi marked.
    assert (classes_of item marked
              = Dom.add "completed" (Dom.remove "current" (classes_of item st)))
      as Hdone.
    { subst marked. rewrite (classes_of_markComplete st itemId item Hi).
      by rewrite decide_True. }
    assert ("completed" ∈ classes_of item marked) as Hcomp
      by (rewrite Hdone; apply elem_of_add; by right).
    assert ("current" ∉ classes_of item marked) as Hnot.
    { rewrite Hdone, elem_of_add, elem_of_remove. by intros [[_ ?]|?]. }
    split; [done|]. split; [done|].
    rewrite classes_of_setCurrent.
    rewrite (proj2 (contains_true _ _) Hcomp), andb_false_r.
    unfold cleared. destruct (_ && _).
    + rewrite !elem_of_remove. split; [by split|]. by intros [_ ?].
    + done.
Qed.

(** ** Completed items stay completed *)

Lemma classes_of_document st st' :
  document st' = document st → ∀ el, classes_of el st' = classes_of el st.
Proof. intros Hd el. unfold classes_of. by rewrite Hd. Qed.

Lemma classes_of_set_textContent el d s st :
  classes_of el (set_textContent d s st) = classes_of el st.
Proof. by apply from_option_alter_frame. Qed.

Lemma classes_of_set_color el d s st :
  classes_of el (set_color d s st) = classes_of el st.
Proof. by apply from_option_alter_frame. Qed.

Lemma classes_of_set_animation el d s st :
  classes_of el (set_animation d s st) = classes_of el st.
Proof. by apply from_option_alter_frame. Qed.

Lemma keeps_refl st : keeps_completed st st.
Proof. by intros el. Qed.

Lemma keeps_trans st1 st2 st3 :
  keeps_completed st1 st2 → keeps_completed st2 st3 → keeps_completed st1 st3.
Proof. intros H12 H23 el Hel. by apply H23, H12. Qed.

Lemma keeps_same_classes st st' :
  (∀ el, classes_of el st' = classes_of el st) → keeps_completed st st'.
Proof. intros Hc el. by rewrite Hc. Qed.

Lemma keeps_edit n f st :
  (∀ cl, "completed" ∈ cl → "completed" ∈ f cl) →
  keeps_completed st (edit_classList n f st).
Proof.
  intros Hf el. unfold classes_of, edit_classList. simpl.
  destruct (decide (n = el)) as [->|Hne].
  - rewrite list_lookup_alter_eq. destruct (document st !! el); simpl; auto.
  - by rewrite list_lookup_alter_ne.
Qed.

Lemma keeps_edit_each f nodes st :
  (∀ cl, "completed" ∈ cl → "completed" ∈ f cl) →
  keeps_completed st (foldl (λ st n, edit_classList n f st) st nodes).
Proof.
  intros Hf. revert st. induction nodes as [|n nodes IH]; intros st; simpl.
  - apply keeps_refl.
  - eapply keeps_trans; [|apply IH]. by apply keeps_edit.
Qed.

Lemma keeps_add c cl : "completed" ∈ cl → "completed" ∈ Dom.add c cl.
Proof. intros Hc. apply elem_of_add. by left. Qed.

Lemma keeps_remove c :
  c ≠ "completed" → ∀ cl, "completed" ∈ cl → "completed" ∈ Dom.remove c cl.
Proof. intros Hne cl Hc. apply elem_of_remove. split; [done|congruence]. Qed.

Lemma keeps_remove_class_each c nodes st :
  c ≠ "completed" → keeps_completed st (remove_class_each c nodes st).
Proof. intros Hne. by apply keeps_edit_each, keeps_remove. Qed.

Section Completed.
Context `{NumberOps}.

Lemma keeps_exec c st : keeps_completed st (exec c st).
Proof.
  destruct c; simpl.
  - unfold startTimer. case_match; [|apply keeps_refl].
    apply keeps_same_classes. intros el. unfold classes_of.
    destruct (timerInterval st); simpl; by apply from_option_alter_frame.
  - apply keeps_same_classes, classes_of_document.
    by destruct (stopTimer_core st) as (_ & _ & _ & _ & ?).
  - unfold resetTimer.
    destruct (stopTimer_core st) as (_ & _ & _ & _ & Hdoc).
    case_match.
    + apply keeps_same_classes. intros el.
      rewrite classes_of_set_animation, classes_of_set_color.
      unfold updateTimerDisplay. rewrite classes_of_set_textContent.
      by apply classes_of_document.
    + by apply keeps_same_classes, classes_of_document.
  - unfold revealAnswer. case_match; [|apply keeps_refl].
    apply keeps_edit, keeps_add.
  - unfold hideAnswer. case_match; [|apply keeps_refl].
    by apply keeps_edit, keeps_remove.
  - apply keeps_same_classes, classes_of_document.
    unfold updateScore, updateScoreDisplay. by repeat case_match.
  - apply keeps_same_classes, classes_of_document.
    unfold setScore, updateScoreDisplay. by repeat case_match.
  - apply keeps_same_classes, classes_of_document.
    unfold resetScores, updateScoreDisplay. by repeat case_match.
  - unfold markComplete. case_match; [|apply keeps_refl].
    eapply keeps_trans; [apply keeps_edit|apply keeps_edit, keeps_add].
    by apply keeps_remove.
  - unfold setCurrent.
    eapply keeps_trans;
      [apply (keeps_remove_class_each "current"
                (Dom.querySelectorAll ["progress-item"; "current"] (document st)));
       done|].
    repeat case_match; try apply keeps_refl. apply keeps_edit, keeps_add.
  - unfold animateMerkleTree. repeat case_match; try apply keeps_refl.
    apply (keeps_trans _ (edit_classList n0 (Dom.add "visible") st));
      [apply keeps_edit, keeps_add|].
    by apply keeps_same_classes.
  - unfold resetMerkleAnimation.
    case_match; [|apply keeps_refl].
    apply (keeps_trans _ (set_merkleAnimationStep 0 st));
      [by apply keeps_same_classes|].
    by apply keeps_remove_class_each.
  - unfold highlightBug. repeat case_match; try apply keeps_refl.
    apply keeps_edit, keeps_add.
  - unfold clearBugHighlights.
    case_match; [|apply keeps_refl].
    by apply keeps_remove_class_each.
Qed.

Lemma keeps_invoke cb st : keeps_completed st (invoke cb st).
Proof.
  destruct cb as [[name body]|]; [|apply keeps_refl]. simpl.
  eapply keeps_trans; [apply (keeps_same_classes _ (log (EvInvoke name) st));
                       by intros el|].
  generalize (log (EvInvoke name) st). clear st.
  induction body as [|c body IH]; intros s; [apply keeps_refl|].
  simpl. eapply keeps_trans; [apply keeps_exec | apply IH].
Qed.

Lemma keeps_fire h st : keeps_completed st (fire h st).
Proof.
  unfold fire.
  destruct (intervals st !! h) as [[d cb|el c t s]|]; [| |apply keeps_refl].
  - unfold timerTick.
    set (st1 := updateTimerDisplay d (set_timerSeconds (JsNumber.add (timerSeconds st) (-1)) st)).
    assert (keeps_completed st st1) as H1.
    { apply keeps_same_classes. intros el. subst st1.
      unfold updateTimerDisplay. by rewrite classes_of_set_textContent. }
    set (st2 := if timerSeconds st1 <=? 0 then _ else st1).
    assert (keeps_completed st st2) as H2.
    { subst st2. destruct (timerSeconds st1 <=? 0); [|done].
      eapply keeps_trans; [|apply keeps_invoke].
      eapply keeps_trans; [exact H1|]. apply keeps_same_classes. intros el.
      rewrite classes_of_set_animation, classes_of_set_textContent.
      by destruct (timerInterval st1). }
    clearbody st2. clear H1.
    eapply keeps_trans; [exact H2|]. apply keeps_same_classes. intros el.
    repeat case_match; by rewrite ?classes_of_set_color.
  - unfold animateTick. apply keeps_same_classes. intros x.
    case_match; unfold classes_of; simpl;
      by repeat (rewrite from_option_alter_frame by done).
Qed.

(** X8. No call of the script and no interval firing removes "completed":
    an item once marked complete stays so, whatever the script does after. *)
Theorem completed_is_permanent
    (inputs : list Input) (st : State) (el : nat) :
  forallb scripted inputs = true →
  "completed" ∈ classes_of el st →
  "completed" ∈ classes_of el (run inputs st).
Proof.
  unfold run. revert st.
  induction inputs as [|i inputs IH]; intros st Hin Hel; [done|].
  simpl in *. apply andb_true_iff in Hin as [Hi Hin]. apply IH; [done|].
  destruct i as [c|h|]; simpl; [| |done].
  - by apply keeps_exec.
  - by apply keeps_fire.
Qed.

End Completed.

(** ** Score animation *)


Section ScoreAnimation.
Context `{NumberOps}.




Lemma animateNumber_frame el v st :
  handles_fresh st →
  let st' := animateNumber el v st in
  (∀ h c, intervals st !! h = Some c → intervals st' !! h = Some c)
  ∧ intervals st' !! next_handle st
    = Some (AnimateStep el (parseInt_or_0 (text_of el st)) v 0)
  ∧ document st' = document st
  ∧ trace st' = trace st
  ∧ timerInterval st' = timerInterval st
  ∧ timerSeconds st' = timerSeconds st
  ∧ scores st' = scores st
  ∧ merkleAnimationStep st' = merkleAnimationStep st
  ∧ next_handle st' = Pos.succ (next_handle st).
Proof.
  intros Hf. simpl. split; [|by rewrite lookup_insert_eq].
  intros h c Hh. rewrite lookup_insert_ne; [done|].
  specialize (Hf h (ltac:(by rewrite Hh))). lia.
Qed.

Lemma updateScoreDisplay_frame st :
  handles_fresh st →
  let st' := updateScoreDisplay st in
  (∀ h c, intervals st !! h = Some c → intervals st' !! h = Some c)
  ∧ (∀ el, Dom.getElementById "score-hacker" (document st) = Some el →
       intervals st' !! next_handle st
       = Some (AnimateStep el (parseInt_or_0 (text_of el st))
                 (score_of "hacker" st) 0))
  ∧ (∀ el, Dom.getElementById "score-security" (document st) = Some el →
       ∃ h, intervals st' !! h
            = Some (AnimateStep el (parseInt_or_0 (text_of el st))
                      (score_of "security" st) 0))
  ∧ document st' = document st
  ∧ trace st' = trace st
  ∧ timerInterval st' = timerInterval st
  ∧ timerSeconds st' = timerSeconds st
  ∧ scores st' = scores st
  ∧ merkleAnimationStep st' = merkleAnimationStep st.
Proof.
  intros Hf st'. subst st'. unfold updateScoreDisplay.
  destruct (Dom.getElementById "score-hacker" (document st)) as [eh|];
    destruct (Dom.getElementById "score-security" (document st)) as [es|].
  - pose proof (animateNumber_frame eh (score_of "hacker" st) st Hf) as H1.
    simpl in H1. destruct H1 as (K1 & N1 & _).
    pose proof (fresh_setInterval
                  (AnimateStep eh (parseInt_or_0 (text_of eh st))
                     (score_of "hacker" st) 0) st Hf) as Hf1.
    pose proof (animateNumber_frame es
                  (score_of "security" (animateNumber eh (score_of "hacker" st) st))
                  _ Hf1) as H2.
    simpl in H2. destruct H2 as (K2 & N2 & _).
    split; [intros h c Hh; by apply K2, K1|].
    split; [intros el [= <-]; by apply K2|].
    split; [intros el [= <-]; eexists; exact N2|done].
  - pose proof (animateNumber_frame eh (score_of "hacker" st) st Hf) as H1.
    simpl in H1. destruct H1 as (K1 & N1 & _).
    split; [done|]. split; [by intros el [= <-]|]. by split.
  - pose proof (animateNumber_frame es (score_of "security" st) st Hf) as H1.
    simpl in H1. destruct H1 as (K1 & N1 & _).
    split; [done|]. split; [done|].
    split; [intros el [= <-]; eexists; exact N1|done].
  - by repeat split.
Qed.

(** X10. A score update never cancels or replaces an interval: the
    countdown and every animation still running stay registered with the
    same callback, the update only registers new animations: one per score
    display present on the page, from the number the display shows to the
    team's new score.  The document, the trace and the countdown are
    untouched by the call itself. *)
Theorem score_update_only_adds_animations
    (st : State) (team : string) (points : Z) :
  handles_fresh st →
  ∀ st', st' = updateScore team points st ∨ st' = setScore team points st
         ∨ st' = resetScores st →
  (∀ h c, intervals st !! h = Some c → intervals st' !! h = Some c)
  ∧ (∀ el, Dom.getElementById "score-hacker" (document st) = Some el →
       st' ≠ st →
       ∃ h, intervals st' !! h
            = Some (AnimateStep el (parseInt_or_0 (text_of el st))
                      (score_of "hacker" st') 0))
  ∧ (∀ el, Dom.getElementById "score-security" (document st) = Some el →
       st' ≠ st →
       ∃ h, intervals st' !! h
            = Some (AnimateStep el (parseInt_or_0 (text_of el st))
                      (score_of "security" st') 0))
  ∧ document st' = document st
  ∧ trace st' = trace st
  ∧ timerInterval st' = timerInterval st
  ∧ timerSeconds st' = timerSeconds st.
Proof.
  intros Hf.
  assert (∀ sc st',
            st' = updateScoreDisplay (set_scores sc st) →
            (∀ h c, intervals st !! h = Some c → intervals st' !! h = Some c)
            ∧ (∀ el, Dom.getElementById "score-hacker" (document st) = Some el →
                 st' ≠ st →
                 ∃ h, intervals st' !! h
                      = Some (AnimateStep el (parseInt_or_0 (text_of el st))
                                (score_of "hacker" st') 0))
            ∧ (∀ el, Dom.getElementById "score-security" (document st) = Some el →
                 st' ≠ st →
                 ∃ h, intervals st' !! h
                      = Some (AnimateStep el (parseInt_or_0 (text_of el st))
                                (score_of "security" st') 0))
            ∧ document st' = document st
            ∧ trace st' = trace st
            ∧ timerInterval st' = timerInterval st
            ∧ timerSeconds st' = timerSeconds st) as Hshow.
  { intros sc st' ->.
    destruct (updateScoreDisplay_frame (set_scores sc st) Hf)
      as (K & Hh & Hs & Ed & Et & Eti & Ets & Esc & _).
    split; [done|].
    split; [intros el Hel _; eexists; unfold score_of; rewrite Esc;
            by apply Hh|].
    split; [intros el Hel _; unfold score_of; rewrite Esc; by apply Hs|].
    by rewrite Ed, Et, Eti, Ets. }
  intros st' Hst'.
  assert (st' = st → (∀ h c, intervals st !! h = Some c → intervals st' !! h = Some c)
      ∧ (∀ el, Dom.getElementById "score-hacker" (document st) = Some el →
           st' ≠ st →
           ∃ h, intervals st' !! h
                = Some (AnimateStep el (parseInt_or_0 (text_of el st))
                          (score_of "hacker" st') 0))
      ∧ (∀ el, Dom.getElementById "score-security" (document st) = Some el →
           st' ≠ st →
           ∃ h, intervals st' !! h
                = Some (AnimateStep el (parseInt_or_0 (text_of el st))
                          (score_of "security" st') 0))
      ∧ document st' = document st
      ∧ trace st' = trace st
      ∧ timerInterval st' = timerInterval st
      ∧ timerSeconds st' = timerSeconds st) as Hsame.
  { intros ->. by repeat split. }
  destruct Hst' as [Hst'|[Hst'|Hst']].
  - unfold updateScore in Hst'. destruct (hasOwnProperty team st).
    + exact (Hshow _ _ Hst').
    + by apply Hsame.
  - unfold setScore in Hst'. destruct (hasOwnProperty team st).
    + exact (Hshow _ _ Hst').
    + by apply Hsame.
  - exact (Hshow (<["security" := 0]> (<["hacker" := 0]> (scores st))) _ Hst').
Qed.

End ScoreAnimation.

(** ** The countdown and the score animations do not disturb each other *)

Lemma live_none st : timerInterval st = None → handle_live st.
Proof. intros Hn h Hh. congruence. Qed.

Lemma live_grow st st' :
  (∀ h c, intervals st !! h = Some c → intervals st' !! h = Some c) →
  timerInterval st' = timerInterval st →
  handle_live st → handle_live st'.
Proof.
  intros Hi Ht Hl h Hh. rewrite Ht in Hh.
  destruct (Hl h Hh) as (d & cb & Hd). exists d, cb. by apply Hi.
Qed.

Lemma live_same_core st st' :
  same_core st st' → handle_live st → handle_live st'.
Proof.
  intros (Hi & Ht & _). apply live_grow; [|done]. by rewrite Hi.
Qed.

Lemma resetTimer_core id s st :
  intervals (resetTimer id s st) = intervals (stopTimer st)
  ∧ timerInterval (resetTimer id s st) = None
  ∧ scores (resetTimer id s st) = scores st.
Proof.
  destruct (stopTimer_core st) as (_ & Et & _ & Esc & _).
  unfold resetTimer. by case_match.
Qed.

Lemma keeps_animations_refl st : keeps_animations st st.
Proof. by intros h el c t k. Qed.

Lemma keeps_animations_trans st1 st2 st3 :
  keeps_animations st1 st2 → keeps_animations st2 st3 →
  keeps_animations st1 st3.
Proof. intros H12 H23 h el c t k Hh. by apply H23, H12. Qed.

Lemma keeps_animations_same st st' :
  intervals st' = intervals st → keeps_animations st st'.
Proof. intros Hi h el c t k. by rewrite Hi. Qed.

(** Cancelling the interval that [timerInterval] names cancels no score
    animation. *)
Lemma keeps_animations_clear st st' :
  handle_live st →
  intervals st' = intervals (clearInterval (timerInterval st) st) →
  keeps_animations st st'.
Proof.
  intros Hl Hi h el c t k Hh. rewrite Hi.
  destruct (timerInterval st) as [x|] eqn:Hx; simpl; [|done].
  rewrite lookup_delete_ne; [done|]. intros ->.
  destruct (Hl h Hx) as (d & cb & Hd). congruence.
Qed.

Section Interference.
Context `{NumberOps}.

Lemma live_exec c st :
  handles_fresh st → handle_live st → handle_live (exec c st).
Proof.
  intros Hf Hl. destruct c; simpl.
  - destruct (Dom.getElementById displayId (document st)) as [d|] eqn:Hd.
    + destruct (startTimer_core displayId seconds onComplete st d Hd)
        as (Ei & Et & _).
      intros h Hh. rewrite Et in Hh. injection Hh as <-.
      rewrite Ei, lookup_insert_eq. eauto.
    + unfold startTimer. by rewrite Hd.
  - apply live_none. by destruct (stopTimer_core st) as (_ & ? & _).
  - apply live_none. by destruct (resetTimer_core displayId seconds st)
      as (_ & ? & _).
  - eapply live_same_core; [apply same_core_revealAnswer|done].
  - eapply live_same_core; [apply same_core_hideAnswer|done].
  - unfold updateScore. case_match; [|done].
    match goal with |- handle_live (updateScoreDisplay ?s) =>
      destruct (updateScoreDisplay_frame s Hf) as (K & _ & _ & _ & _ & Et & _);
      by apply (live_grow s) end.
  - unfold setScore. case_match; [|done].
    match goal with |- handle_live (updateScoreDisplay ?s) =>
      destruct (updateScoreDisplay_frame s Hf) as (K & _ & _ & _ & _ & Et & _);
      by apply (live_grow s) end.
  - unfold resetScores.
    match goal with |- handle_live (updateScoreDisplay ?s) =>
      destruct (updateScoreDisplay_frame s Hf) as (K & _ & _ & _ & _ & Et & _);
      by apply (live_grow s) end.
  - eapply live_same_core; [apply same_core_markComplete|done].
  - eapply live_same_core; [apply same_core_setCurrent|done].
  - eapply live_same_core; [apply same_core_animateMerkleTree|done].
  - eapply live_same_core; [apply same_core_resetMerkleAnimation|done].
  - eapply live_same_core; [apply same_core_highlightBug|done].
  - eapply live_same_core; [apply same_core_clearBugHighlights|done].
Qed.

Lemma keeps_animations_exec c st :
  handles_fresh st → handle_live st → keeps_animations st (exec c st).
Proof.
  intros Hf Hl. destruct c; simpl.
  - destruct (Dom.getElementById displayId (document st)) as [d|] eqn:Hd.
    + destruct (startTimer_core displayId seconds onComplete st d Hd)
        as (Ei & _).
      intros h el c t k Hh. rewrite Ei, lookup_insert_ne.
      * by apply (keeps_animations_clear st _ Hl eq_refl).
      * specialize (Hf h (ltac:(by rewrite Hh))). lia.
    + unfold startTimer. rewrite Hd. apply keeps_animations_refl.
  - apply keeps_animations_clear; [done|].
    by destruct (stopTimer_core st) as (? & _).
  - apply keeps_animations_clear; [done|].
    destruct (resetTimer_core displayId seconds st) as (-> & _).
    by destruct (stopTimer_core st) as (? & _).
  - apply keeps_animations_same. by destruct (same_core_revealAnswer elementId st).
  - apply keeps_animations_same. by destruct (same_core_hideAnswer elementId st).
  - unfold updateScore. case_match; [|apply keeps_animations_refl].
    match goal with |- keeps_animations _ (updateScoreDisplay ?s) =>
      destruct (updateScoreDisplay_frame s Hf) as (K & _) end.
    intros h el c t k Hh. by apply K.
  - unfold setScore. case_match; [|apply keeps_animations_refl].
    match goal with |- keeps_animations _ (updateScoreDisplay ?s) =>
      destruct (updateScoreDisplay_frame s Hf) as (K & _) end.
    intros h el c t k Hh. by apply K.
  - unfold resetScores.
    match goal with |- keeps_animations _ (updateScoreDisplay ?s) =>
      destruct (updateScoreDisplay_frame s Hf) as (K & _) end.
    intros h el c t k Hh. by apply K.
  - apply keeps_animations_same. by destruct (same_core_markComplete itemId st).
  - apply keeps_animations_same. by destruct (same_core_setCurrent itemId st).
  - apply keeps_animations_same.
    by destruct (same_core_animateMerkleTree containerId st).
  - apply keeps_animations_same.
    by destruct (same_core_resetMerkleAnimation containerId st).
  - apply keeps_animations_same.
    by destruct (same_core_highlightBug codeBlockId lineNumber st).
  - apply keeps_animations_same.
    by destruct (same_core_clearBugHighlights codeBlockId st).
Qed.

Lemma reach_invoke cb st :
  handles_fresh st → handle_live st →
  handle_live (invoke cb st) ∧ keeps_animations st (invoke cb st).
Proof.
  intros Hf Hl. destruct cb as [[name body]|];
    [|split; [done|apply keeps_animations_refl]].
  simpl.
  assert (handles_fresh (log (EvInvoke name) st)) as Hf' by done.
  assert (handle_live (log (EvInvoke name) st)) as Hl' by done.
  assert (keeps_animations st (log (EvInvoke name) st)) as Hk
    by (by apply keeps_animations_same).
  revert Hf' Hl' Hk. generalize (log (EvInvoke name) st). clear Hf Hl.
  induction body as [|c body IH]; intros s Hf Hl Hk; [done|].
  simpl. apply IH.
  - by apply fresh_exec.
  - by apply live_exec.
  - eapply keeps_animations_trans; [exact Hk|].
    by apply keeps_animations_exec.
Qed.

Lemma reach_timerTick d cb st :
  handles_fresh st → handle_live st →
  handle_live (timerTick d cb st) ∧ keeps_animations st (timerTick d cb st).
Proof.
  intros Hf Hl. unfold timerTick.
  set (st1 := updateTimerDisplay d (set_timerSeconds (JsNumber.add (timerSeconds st) (-1)) st)).
  set (st2 := if timerSeconds st1 <=? 0 then _ else st1).
  assert (handle_live st2 ∧ keeps_animations st st2) as [Hl2 Hk2].
  { subst st2. destruct (timerSeconds st1 <=? 0).
    - match goal with |- handle_live (invoke cb ?s) ∧ _ =>
        assert (handles_fresh s) as Hf3;
        [|assert (handle_live s) as Hl3 by (by apply live_none);
          assert (keeps_animations st s) as Hk3;
          [|destruct (reach_invoke cb s Hf3 Hl3) as [? ?]; split; [done|];
            by eapply keeps_animations_trans]]
      end.
      + apply (fresh_shrink (clearInterval (timerInterval st) st));
          [| |by apply fresh_clearInterval];
          subst st1; simpl; by destruct (timerInterval st).
      + apply keeps_animations_clear; [done|].
        subst st1; simpl; by destruct (timerInterval st).
    - split; [|by apply keeps_animations_same].
      revert Hl. by apply live_grow. }
  clearbody st2.
  split.
  - repeat case_match; try done;
      repeat (eapply live_same_core; [apply same_core_set_color|]); done.
  - eapply keeps_animations_trans; [exact Hk2|].
    apply keeps_animations_same. by repeat case_match.
Qed.

Lemma live_fire h st :
  handles_fresh st → handle_live st → handle_live (fire h st).
Proof.
  intros Hf Hl. unfold fire.
  destruct (intervals st !! h) as [[d cb|el c t s]|] eqn:Hh; [| |done].
  - by apply reach_timerTick.
  - assert (∀ x, timerInterval st = Some x → x ≠ h) as Hne.
    { intros x Hx ->. destruct (Hl h Hx) as (d & cb & Hd). congruence. }
    unfold animateTick. intros x Hx.
    assert (timerInterval st = Some x) as Hx' by (by destruct (_ <=? _)).
    destruct (Hl x Hx') as (d & cb & Hd). exists d, cb.
    specialize (Hne x Hx').
    destruct (_ <=? _); simpl;
      by rewrite ?lookup_delete_ne, lookup_insert_ne by done.
Qed.

Lemma keeps_animations_fire h h' st el c t k :
  handles_fresh st → handle_live st →
  h' ≠ h →
  intervals st !! h' = Some (AnimateStep el c t k) →
  intervals (fire h st) !! h' = Some (AnimateStep el c t k).
Proof.
  intros Hf Hl Hne Hh'. unfold fire.
  destruct (intervals st !! h) as [[d cb|e c0 t0 s]|] eqn:Hh; [| |done].
  - by apply reach_timerTick.
  - unfold animateTick. destruct (_ <=? _); simpl;
      by rewrite ?lookup_delete_ne, lookup_insert_ne by done.
Qed.

Lemma live_run inputs st :
  handles_fresh st → handle_live st → handle_live (run inputs st).
Proof.
  unfold run. revert st.
  induction inputs as [|i inputs IH]; intros st Hf Hl; [done|].
  simpl. apply IH.
  - by apply (fresh_run [i]).
  - destruct i; simpl; [by apply live_exec|by apply live_fire|done].
Qed.

(** X11. The handle the script keeps is never stale: in every state the
    page reaches, a non-null [timerInterval] names a live interval, and that
    interval runs the countdown callback; with the handle null, no
    countdown interval is live.  So a countdown is running exactly when
    [timerInterval] is set. *)
Theorem timer_handle_names_live_countdown
    (doc : list Element) (inputs : list Input) :
  let st := run inputs (init doc) in
  (∀ h, timerInterval st = Some h ↔ h ∈ live_timers st)
  ∧ (timerInterval st = None ↔ live_timers st = []).
Proof.
  intros st.
  assert (handles_fresh (init doc)) as Hf0.
  { intros h. simpl. rewrite lookup_empty. by intros []. }
  assert (handle_live st) as Hl by (by apply live_run; [|apply live_none]).
  assert (Inv false st) as (_ & I2 & _) by (by apply Inv_run; [|apply Inv_init]).
  assert (∀ h, timerInterval st = Some h ↔ h ∈ live_timers st) as Hiff.
  { intros h. rewrite live_timers_lookup. split.
    - apply Hl.
    - intros (d & cb & Hd). by apply (I2 h d cb). }
  split; [done|]. split.
  - intros Hn. destruct (live_timers st) as [|h l] eqn:E; [done|].
    assert (timerInterval st = Some h) by (apply Hiff; by left).
    congruence.
  - intros Hn. destruct (timerInterval st) as [h|] eqn:E; [|done].
    assert (h ∈ live_timers st) as Hin by (by apply Hiff).
    rewrite Hn in Hin. by apply elem_of_nil in Hin.
Qed.

(** X12. A score animation is cancelled by nothing but its own last
    firing: in every state the page reaches, any call of the script
    (starting, stopping or resetting the countdown included), the firing of
    any other interval (the expiry of the countdown and its completion
    callback included) and any outside edit of the document leave the
    animation registered at the step it had. *)
Theorem animation_cancelled_only_by_itself
    (doc : list Element) (inputs : list Input) (i : Input)
    (h : positive) (el : nat) (c t k : Z) :
  let st := run inputs (init doc) in
  intervals st !! h = Some (AnimateStep el c t k) →
  i ≠ Fire h →
  intervals (step i st) !! h = Some (AnimateStep el c t k).
Proof.
  intros st Hh Hi.
  assert (handles_fresh (init doc)) as Hf0.
  { intros x. simpl. rewrite lookup_empty. by intros []. }
  assert (handles_fresh st) as Hf by (by apply fresh_run).
  assert (handle_live st) as Hl by (by apply live_run; [|apply live_none]).
  destruct i as [call|h'|x e]; simpl.
  - by apply keeps_animations_exec.
  - apply keeps_animations_fire; try done. congruence.
  - done.
Qed.

End Interference.

(** ** Stopping, resetting and very short countdowns *)

Lemma live_timers_nil st :
  (∀ x d cb, intervals st !! x ≠ Some (TimerTick d cb)) → live_timers st = [].
Proof.
  intros Hno. destruct (live_timers st) as [|h l] eqn:E; [done|].
  assert (h ∈ live_timers st) as Hin by (rewrite E; by left).
  apply live_timers_lookup in Hin as (d & cb & Hd). by destruct (Hno h d cb).
Qed.

Section Frozen.
Context `{NumberOps}.

(** With no countdown interval live, a firing moves neither the remaining
    seconds nor the handle, and invokes no callback. *)
Lemma idle_fire h st :
  (∀ x d cb, intervals st !! x ≠ Some (TimerTick d cb)) →
  (∀ x d cb, intervals (fire h st) !! x ≠ Some (TimerTick d cb))
  ∧ timerSeconds (fire h st) = timerSeconds st
  ∧ timerInterval (fire h st) = timerInterval st
  ∧ ∀ name, invocations name (trace (fire h st)) = invocations name (trace st).
Proof.
  intros Hno. unfold fire.
  destruct (intervals st !! h) as [[d cb|el c t s]|] eqn:Hh; [| |done].
  - by destruct (Hno h d cb).
  - unfold animateTick. destruct (_ <=? _); simpl.
    + split; [|split; [done|split; [done|]]].
      * intros x d cb. rewrite lookup_delete. case_decide; [done|].
        rewrite lookup_insert_ne by done. apply Hno.
      * intros name. rewrite !invocations_app.
        change (invocations name [EvText el _]) with 0%nat. lia.
    + split; [|split; [done|split; [done|]]].
      * intros x d cb. rewrite lookup_insert. case_decide; [done|]. apply Hno.
      * intros name. rewrite !invocations_app.
        change (invocations name [EvText el _]) with 0%nat. lia.
Qed.

Lemma idle_fires hs st :
  (∀ x d cb, intervals st !! x ≠ Some (TimerTick d cb)) →
  let st' := run (Fire <$> hs) st in
  (∀ x d cb, intervals st' !! x ≠ Some (TimerTick d cb))
  ∧ timerSeconds st' = timerSeconds st
  ∧ timerInterval st' = timerInterval st
  ∧ ∀ name, invocations name (trace st') = invocations name (trace st).
Proof.
  revert st. induction hs as [|h hs IH]; intros st Hno; [done|].
  change (run (Fire <$> h :: hs) st) with (run (Fire <$> hs) (fire h st)).
  destruct (idle_fire h st Hno) as (Hno' & Es & Et & Ei).
  destruct (IH (fire h st) Hno') as (Hno'' & Es' & Et' & Ei').
  cbv zeta. split; [done|]. rewrite Es', Et'. repeat split; try done.
  intros name. by rewrite Ei'.
Qed.

(** X13. Stopping or resetting the countdown freezes it: in every state the
    page reaches, after [stopTimer()] or [resetTimer(id, s)] no firing of
    any interval, in any number and order, moves the remaining seconds,
    sets the handle or invokes a completion callback; no countdown interval
    is live.  After [stopTimer()] the remaining seconds are those at the
    moment of the call. *)
Theorem stopped_countdown_is_frozen
    (doc : list Element) (inputs : list Input) (id : string) (s : Z)
    (hs : list positive) :
  let st := run inputs (init doc) in
  let frozen st' :=
    let st'' := run (Fire <$> hs) st' in
    timerSeconds st'' = timerSeconds st'
    ∧ timerInterval st'' = None
    ∧ live_timers st'' = []
    ∧ ∀ name, invocations name (trace st'') = invocations name (trace st') in
  frozen (stopTimer st)
  ∧ frozen (resetTimer id s st)
  ∧ timerSeconds (stopTimer st) = timerSeconds st.
Proof.
  intros st frozen.
  assert (Inv false st) as HI by (by apply Inv_run; [|apply Inv_init]).
  assert (∀ st', intervals st' = intervals (clearInterval (timerInterval st) st) →
            timerInterval st' = None → frozen st') as Hfrozen.
  { intros st' Ei Et.
    assert (∀ x d cb, intervals st' !! x ≠ Some (TimerTick d cb)) as Hno.
    { intros x d cb. rewrite Ei. by apply (Inv_cleared false). }
    destruct (idle_fires hs st' Hno) as (Hno' & Es' & Et' & Ei').
    unfold frozen. rewrite Et', Et. repeat split; try done.
    by apply live_timers_nil. }
  destruct (stopTimer_core st) as (Ei & Et & Es & _).
  destruct (resetTimer_core id s st) as (Ei' & Et' & _).
  split; [by apply Hfrozen|]. split; [|done].
  apply Hfrozen; [|done]. by rewrite Ei'.
Qed.


End Frozen.

(** X15. [resetTimer(id, s)] on an existing display without child
    elements, for a whole number [s] below 2^53 in size, stops the
    countdown, stores [s] as the remaining seconds and shows it, and clears
    the colour and the animation of the display, so also the danger colour
    and the pulsing that an expiry left; classes, the other elements and
    the scores are untouched. *)
Theorem resetTimer_restores_display
    (st : State) (displayId : string) (d : nat) (s : Z) :
  Dom.getElementById displayId (document st) = Some d →
  descendants d (document st) = [] →
  Z.abs s < 2 ^ 53 →
  let st' := resetTimer displayId s st in
  timerSeconds st' = s
  ∧ timerInterval st' = None
  ∧ text_of d st' = timer_text s
  ∧ color_of d st' = EmptyString
  ∧ animation_of d st' = EmptyString
  ∧ trace st' = trace st ++ [EvText d (timer_text s)]
  ∧ (∀ el, classes_of el st' = classes_of el st)
  ∧ (∀ el, el ≠ d → document st' !! el = document st !! el)
  ∧ scores st' = scores st
  ∧ merkleAnimationStep st' = merkleAnimationStep st.
Proof.
  intros Hd _ _ st'. subst st'. unfold resetTimer.
  destruct (stopTimer_core st) as (_ & _ & _ & _ & Edoc).
  rewrite Edoc, Hd.
  destruct (getElementById_is_Some _ _ _ Hd) as [e He].
  unfold stopTimer, updateTimerDisplay, text_of, color_of, animation_of,
    classes_of.
  destruct (timerInterval st) eqn:Eti; simpl;
    rewrite !list_lookup_alter_eq, He; simpl;
    repeat split; try done;
    try (intros el Hne; by rewrite !list_lookup_alter_ne by done);
    intros el; destruct (decide (el = d)) as [->|Hne];
    solve [by rewrite !list_lookup_alter_eq, He
          |by rewrite !list_lookup_alter_ne by done].
Qed.

(** ** Hash comparison *)

Lemma computeKeccakHash_returns ethers input st :
  ∃ text,
    (∀ s, (computeKeccakHash ethers input s).1 = Returns text)
    ∧ document (computeKeccakHash ethers input st).2 = document st
    ∧ same_core st (computeKeccakHash ethers input st).2
    ∧ (ethers = None → text = not_loaded_message).
Proof.
  unfold computeKeccakHash. destruct ethers as [lib|].
  - destruct (toUtf8Bytes lib input) as [bytes|error].
    + destruct (keccak256 lib bytes) as [hash|error];
        eexists; by repeat split.
    + eexists; by repeat split.
  - eexists; by repeat split.
Qed.


Lemma text_of_frame el st st' :
  (∀ e, document st !! el = Some e →
        ∃ e', document st' !! el = Some e' ∧ textContent e' = textContent e) →
  is_Some (document st !! el) →
  text_of el st' = text_of el st.
Proof.
  intros Hf [e He]. destruct (Hf e He) as (e' & He' & Ht).
  unfold text_of. by rewrite He, He'.
Qed.

(** X16. The hash comparison: when one of its four elements is missing,
    [initHashComparison] does nothing.  Otherwise its first update shows in
    each output what [computeKeccakHash] returns for the input beside it,
    and colours the two outputs by comparing the two texts: both in the
    neutral colour when the texts are equal, so whenever the two inputs hold
    the same text and whenever the library is missing, and in the two
    contrasting colours when they differ.  It touches neither classes nor
    the timer nor the scores. *)
Theorem hash_comparison_outputs
    (ethers : option Ethers) (input1Id input2Id output1Id output2Id : string)
    (value : nat → string) (st : State) :
  let st' :=
    initHashComparison ethers input1Id input2Id output1Id output2Id value st in
  (Dom.getElementById input1Id (document st) = None
   ∨ Dom.getElementById input2Id (document st) = None
   ∨ Dom.getElementById output1Id (document st) = None
   ∨ Dom.getElementById output2Id (document st) = None →
   st' = st)
  ∧ (∀ input1 input2 output1 output2,
       Dom.getElementById input1Id (document st) = Some input1 →
       Dom.getElementById input2Id (document st) = Some input2 →
       Dom.getElementById output1Id (document st) = Some output1 →
       Dom.getElementById output2Id (document st) = Some output2 →
       output1 ≠ output2 →
       ∃ hash1 hash2,
         (computeKeccakHash ethers (value input1) st).1 = Returns hash1
         ∧ (computeKeccakHash ethers (value input2) st).1 = Returns hash2
         ∧ text_of output1 st' = hash1
         ∧ text_of output2 st' = hash2
         ∧ color_of output1 st'
           = (if bool_decide (hash1 = hash2) then neutral_color
              else first_differs_color)
         ∧ color_of output2 st'
           = (if bool_decide (hash1 = hash2) then neutral_color
              else second_differs_color)
         ∧ (value input1 = value input2 → hash1 = hash2)
         ∧ (ethers = None →
              hash1 = not_loaded_message ∧ hash2 = not_loaded_message)
         ∧ same_core st st'
         ∧ ∀ el, classes_of el st' = classes_of el st).
Proof.
  intros st'. subst st'. unfold initHashComparison. split.
  - intros Hmiss. repeat case_match; try done.
    destruct Hmiss as [?|[?|[?|?]]]; congruence.
  - intros input1 input2 output1 output2 Hi1 Hi2 Ho1 Ho2 Hne.
    rewrite Hi1, Hi2, Ho1, Ho2.
    destruct (getElementById_is_Some _ _ _ Ho1) as [e1 He1].
    destruct (getElementById_is_Some _ _ _ Ho2) as [e2 He2].
    unfold updateHashes.
    destruct (computeKeccakHash_returns ethers (value input1) st)
      as (hash1 & Hr1 & Hd1 & Hc1 & Hn1).
    destruct (computeKeccakHash ethers (value input1) st) as [r1 s1] eqn:E1.
    pose proof (Hr1 st) as Hr1'. rewrite E1 in Hr1'. simpl in *. subst r1.
    destruct (computeKeccakHash_returns ethers (value input2) s1)
      as (hash2 & Hr2 & Hd2 & Hc2 & Hn2).
    destruct (computeKeccakHash ethers (value input2) s1) as [r2 s2] eqn:E2.
    pose proof (Hr2 s1) as Hr2'. rewrite E2 in Hr2'. simpl in *. subst r2.
    exists hash1, hash2.
    split; [done|]. split; [by apply Hr2|].
    assert (document s2 = document st) as Hd by congruence.
    unfold highlightHashDifferences, text_of, color_of, classes_of.
    split; [|split; [|split; [|split; [|split; [|split; [|split]]]]]].
    + destruct (bool_decide (hash1 ≠ hash2)); simpl; rewrite Hd;
        repeat (rewrite list_lookup_alter_eq
                || rewrite list_lookup_alter_ne by done);
        by rewrite He1.
    + destruct (bool_decide (hash1 ≠ hash2)); simpl; rewrite Hd;
        repeat (rewrite list_lookup_alter_eq
                || rewrite list_lookup_alter_ne by done);
        by rewrite He2.
    + destruct (decide (hash1 = hash2)) as [Heq|Hneq];
        [rewrite bool_decide_eq_false_2, bool_decide_eq_true_2 by tauto
        |rewrite bool_decide_eq_true_2, bool_decide_eq_false_2 by done];
        simpl; rewrite Hd;
        repeat (rewrite list_lookup_alter_eq
                || rewrite list_lookup_alter_ne by done);
        by rewrite He1.
    + destruct (decide (hash1 = hash2)) as [Heq|Hneq];
        [rewrite bool_decide_eq_false_2, bool_decide_eq_true_2 by tauto
        |rewrite bool_decide_eq_true_2, bool_decide_eq_false_2 by done];
        simpl; rewrite Hd;
        repeat (rewrite list_lookup_alter_eq
                || rewrite list_lookup_alter_ne by done);
        by rewrite He2.
    + intros Hv. rewrite <- Hv in Hr2.
      specialize (Hr1 st). specialize (Hr2 st). congruence.
    + intros Hnone. by split; [apply Hn1|apply Hn2].
    + eapply same_core_trans; [exact Hc1|].
      eapply same_core_trans; [exact Hc2|].
      destruct (bool_decide (hash1 ≠ hash2)); by repeat split.
    + intros el.
      destruct (bool_decide (hash1 ≠ hash2)); simpl; rewrite Hd;
        by repeat (rewrite from_option_alter_frame by done).
Qed.

(** ** Number formatting *)

Lemma is_digit_digit d : 0 ≤ d < 10 → Regex.is_digit (JsString.digit d) = true.
Proof.
  intros Hd. assert (d = 0 ∨ d = 1 ∨ d = 2 ∨ d = 3 ∨ d = 4 ∨ d = 5 ∨ d = 6
                     ∨ d = 7 ∨ d = 8 ∨ d = 9) as Hc by lia.
  by repeat destruct Hc as [->|Hc]; [..|subst d].
Qed.

Lemma is_word_digit c : Regex.is_digit c = true → Regex.is_word c = true.
Proof. intros Hc. unfold Regex.is_word. by rewrite Hc. Qed.

Lemma all_digits_app s t :
  all_digits (s +:+ t) = all_digits s && all_digits t.
Proof.
  induction s as [|c s IH]; simpl; [done|]. by rewrite IH, andb_assoc.
Qed.

Lemma all_digits_uint d : all_digits (NilEmpty.string_of_uint d) = true.
Proof. induction d; simpl; try done. Qed.

Lemma append_nil_r (s : string) : s +:+ EmptyString = s.
Proof.
  induction s as [|c s IH]; [done|].
  change (String c (s +:+ EmptyString) = String c s). by rewrite IH.
Qed.

Lemma append_assoc (s t u : string) : (s +:+ t) +:+ u = s +:+ t +:+ u.
Proof.
  induction s as [|c s IH]; [done|].
  change (String c ((s +:+ t) +:+ u) = String c (s +:+ t +:+ u)).
  by rewrite IH.
Qed.

Lemma string_of_uint_revapp_gen d a b :
  NilEmpty.string_of_uint (Decimal.revapp d a) +:+ b
  = NilEmpty.string_of_uint (Decimal.revapp d Decimal.Nil)
    +:+ (NilEmpty.string_of_uint a +:+ b).
Proof.
  revert a b. induction d as [|d IH|d IH|d IH|d IH|d IH|d IH|d IH|d IH|d IH|d IH];
    intros a b; simpl; [done|..];
    rewrite (IH _ b), (IH (_ Decimal.Nil)); done.
Qed.

Lemma string_of_uint_revapp d a :
  NilEmpty.string_of_uint (Decimal.revapp d a)
  = NilEmpty.string_of_uint (Decimal.rev d) +:+ NilEmpty.string_of_uint a.
Proof.
  pose proof (string_of_uint_revapp_gen d a EmptyString) as Hgen.
  by rewrite !append_nil_r in Hgen.
Qed.

(** The decimal notation of a positive number, least significant digit
    first, gains one digit in front when the number is multiplied by ten
    and a digit is added. *)
Lemma to_little_uint_digit (p : positive) (k : nat) :
  (k < 10)%nat →
  DecimalPos.Unsigned.to_lu (N.pos p * 10 + N.of_nat k)
  = Nat.iter k Decimal.Little.succ
      (Decimal.D0 (DecimalPos.Unsigned.to_lu (N.pos p))).
Proof.
  intros Hk. induction k as [|k IH].
  - rewrite N.add_0_r, N.mul_comm. apply DecimalPos.Unsigned.to_ldec_tenfold.
  - rewrite Nat2N.inj_succ, N.add_succ_r, DecimalPos.Unsigned.to_lu_succ, IH by lia.
    done.
Qed.

Lemma toString_pos p :
  JsString.toString (Z.pos p) = NilEmpty.string_of_uint (Pos.to_uint p).
Proof.
  unfold JsString.toString. simpl. unfold NilZero.string_of_uint.
  pose proof (DecimalPos.Unsigned.to_uint_nonnil p) as Hnil.
  by destruct (Pos.to_uint p).
Qed.

Lemma toString_times_ten (q d : Z) :
  0 < q → 0 ≤ d < 10 →
  JsString.toString (10 * q + d)
  = JsString.toString q +:+ String (JsString.digit d) EmptyString.
Proof.
  intros Hq Hd. destruct q as [|p|p]; try lia.
  assert (∃ k, (k < 10)%nat ∧ d = Z.of_nat k) as (k & Hk & ->)
    by (exists (Z.to_nat d); lia).
  assert (10 * Z.pos p + Z.of_nat k = Z.pos (p * 10 + Pos.of_nat k) ∨ k = 0%nat)
    as Hpos by lia.
  assert (∃ p', 10 * Z.pos p + Z.of_nat k = Z.pos p'
                ∧ N.pos p' = (N.pos p * 10 + N.of_nat k)%N) as (p' & -> & Hp').
  { exists (Z.to_pos (10 * Z.pos p + Z.of_nat k)). split; lia. }
  rewrite !toString_pos. unfold Pos.to_uint.
  change (Pos.to_little_uint p') with (DecimalPos.Unsigned.to_lu (N.pos p')).
  rewrite Hp', to_little_uint_digit by done.
  change (DecimalPos.Unsigned.to_lu (N.pos p)) with (Pos.to_little_uint p).
  generalize (Pos.to_little_uint p). intros u.
  unfold Decimal.rev.
  do 10 (destruct k as [|k]; [simpl; by rewrite string_of_uint_revapp|]).
  lia.
Qed.

Lemma toString_digits (n : Z) :
  0 < n →
  all_digits (JsString.toString n) = true ∧ JsString.toString n ≠ EmptyString.
Proof.
  intros Hn. destruct n as [|p|p]; try lia. rewrite toString_pos. split.
  - apply all_digits_uint.
  - pose proof (DecimalPos.Unsigned.to_uint_nonnil p) as Hnil.
    by destruct (Pos.to_uint p).
Qed.

Lemma toString_thousands (q r : Z) :
  0 < q → 0 ≤ r < 1000 →
  JsString.toString (1000 * q + r) = JsString.toString q +:+ three_digits r.
Proof.
  intros Hq Hr.
  replace (1000 * q + r)
    with (10 * (10 * (10 * q + r / 100) + r / 10 mod 10) + r mod 10)
    by (Z.div_mod_to_equations; lia).
  rewrite !toString_times_ten, !append_assoc
    by (Z.div_mod_to_equations; lia).
  done.
Qed.

Lemma toString_neg (n : Z) :
  0 < n → JsString.toString (- n) = String "-" (JsString.toString n).
Proof.
  intros Hn. destruct n as [|p|p]; try lia.
  change (- Z.pos p) with (Z.neg p). rewrite toString_pos.
  unfold JsString.toString. simpl. unfold NilZero.string_of_uint.
  pose proof (DecimalPos.Unsigned.to_uint_nonnil p) as Hnil.
  by destruct (Pos.to_uint p).
Qed.

Lemma append_cons (c : ascii) (s t : string) :
  String c s +:+ t = String c (s +:+ t).
Proof. reflexivity. Qed.

Lemma append_nil_l (t : string) : EmptyString +:+ t = t.
Proof. reflexivity. Qed.

Lemma three_digit_groups_cons a b c rest :
  Regex.three_digit_groups (String a (String b (String c rest)))
  = Regex.is_digit a && Regex.is_digit b && Regex.is_digit c
    && (negb (Regex.starts_with_digit rest) || Regex.three_digit_groups rest).
Proof. reflexivity. Qed.

Lemma starts_with_digit_app (t : string) (a : ascii) (u : string) :
  all_digits t = true → Regex.is_digit a = true →
  Regex.starts_with_digit (t +:+ String a u) = true.
Proof.
  destruct t as [|x t]; [done|]. rewrite append_cons.
  cbn [all_digits Regex.starts_with_digit]. by intros [-> _]%andb_true_iff.
Qed.

(** In front of a last group of three digits, the lookahead sees what it
    sees without the group, except at the group itself. *)
Lemma three_digit_groups_app (t : string) (a b c : ascii) :
  all_digits t = true →
  Regex.is_digit a = true → Regex.is_digit b = true → Regex.is_digit c = true →
  Regex.three_digit_groups (t +:+ String a (String b (String c EmptyString)))
  = negb (Regex.starts_with_digit t) || Regex.three_digit_groups t.
Proof.
  intros Ht Ha Hb Hc.
  assert (∀ n t, (String.length t < n)%nat → all_digits t = true →
            Regex.three_digit_groups
              (t +:+ String a (String b (String c EmptyString)))
            = negb (Regex.starts_with_digit t) || Regex.three_digit_groups t)
    as Hgen; [|by apply (Hgen (S (String.length t))); [lia|]].
  clear t Ht. intros n. induction n as [|n IH]; intros t Hlen Ht; [lia|].
  destruct t as [|x [|y [|z rest]]]; cbn [all_digits] in Ht;
    rewrite ?append_cons, ?append_nil_l, !three_digit_groups_cons.
  - by rewrite Ha, Hb, Hc.
  - apply andb_true_iff in Ht as [Hx _].
    cbn [Regex.starts_with_digit Regex.three_digit_groups].
    by rewrite Hx, Ha, Hb, Hc.
  - apply andb_true_iff in Ht as [Hx Ht].
    apply andb_true_iff in Ht as [Hy _].
    cbn [Regex.starts_with_digit Regex.three_digit_groups].
    by rewrite Hx, Hy, Ha, Hb.
  - apply andb_true_iff in Ht as [Hx Ht].
    apply andb_true_iff in Ht as [Hy Ht].
    apply andb_true_iff in Ht as [Hz Ht].
    rewrite starts_with_digit_app by done.
    rewrite IH by (done || (simpl in Hlen; lia)).
    cbn [Regex.starts_with_digit]. by rewrite Hx, Hy, Hz.
Qed.

(** With a last group of three digits appended to a digit string, the
    commas of the string stay where they are and one more goes in front of
    the group. *)
Lemma insert_commas_app (prev : option ascii) (s : string) (a b c : ascii) :
  s ≠ EmptyString → all_digits s = true →
  Regex.is_digit a = true → Regex.is_digit b = true → Regex.is_digit c = true →
  Regex.insert_commas prev (s +:+ String a (String b (String c EmptyString)))
  = Regex.insert_commas prev s
    +:+ String "," (String a (String b (String c EmptyString))).
Proof.
  intros Hs Hd Ha Hb Hc. revert prev Hs Hd.
  induction s as [|x s IH]; intros prev Hs Hd; [done|].
  cbn [all_digits] in Hd. apply andb_true_iff in Hd as [Hx Hd].
  rewrite append_cons.
  change (Regex.insert_commas prev (String x ?u))
    with ((if Regex.non_boundary prev (String x u)
              && Regex.three_digit_groups (String x u)
           then "," else EmptyString)
          +:+ String x (Regex.insert_commas (Some x) u)).
  rewrite <- (append_cons x s), three_digit_groups_app by (done || (simpl; by rewrite Hx)).
  cbn [Regex.starts_with_digit]. rewrite Hx. cbn [negb orb].
  change (Regex.non_boundary prev (String x s +:+ String a (String b (String c EmptyString))))
    with (Regex.non_boundary prev (String x s)).
  rewrite append_assoc. f_equal. rewrite append_cons. f_equal.
  destruct s as [|y s].
  - rewrite append_nil_l. simpl.
    unfold Regex.non_boundary. simpl from_option.
    rewrite ?(is_word_digit x Hx), ?(is_word_digit a Ha),
      ?(is_word_digit b Hb), ?(is_word_digit c Hc), Ha, Hb, Hc.
    done.
  - by apply IH.
Qed.

(** A minus sign in front is a non-word character, as the start of the
    text is. *)
Lemma insert_commas_minus (s : string) :
  Regex.insert_commas None (String "-" s)
  = String "-" (Regex.insert_commas None s).
Proof.
  assert (Regex.three_digit_groups (String "-" s) = false) as Hno
    by (by destruct s as [|b [|c rest]]).
  assert (Regex.insert_commas (Some "-"%char) s = Regex.insert_commas None s)
    as Hsame by (by destruct s).
  change (Regex.insert_commas None (String "-" s))
    with ((if Regex.non_boundary None (String "-" s)
              && Regex.three_digit_groups (String "-" s)
           then "," else EmptyString)
          +:+ String "-" (Regex.insert_commas (Some "-"%char) s)).
  by rewrite Hno, andb_false_r, Hsame.
Qed.

Lemma formatNumber_below_1000 (k : nat) :
  (k < 1000)%nat →
  formatNumber (Z.of_nat k) = JsString.toString (Z.of_nat k).
Proof.
  intros Hk.
  assert (forallb (λ k, String.eqb (formatNumber (Z.of_nat k))
                                   (JsString.toString (Z.of_nat k)))
            (seq 0 1000) = true) as Hall by (vm_compute; reflexivity).
  rewrite forallb_forall in Hall. apply String.eqb_eq, Hall.
  apply in_seq. lia.
Qed.

(** X17. [formatNumber] on an integer that JavaScript prints in full, digit
    for digit: below one thousand the number is printed as it is; from one
    thousand on, the result is that of the number without its last three
    digits, a comma, and the last three digits, so that the digits are
    grouped in threes from the right; a negative number is the minus sign
    followed by the result for its absolute value, and [formatCurrency]
    puts the dollar sign before that minus sign. *)
Theorem formatNumber_groups_thousands (num : Z) :
  Z.abs num < 2 ^ 53 →
  (0 ≤ num < 1000 → formatNumber num = JsString.toString num)
  ∧ (1000 ≤ num →
       formatNumber num
       = formatNumber (num / 1000) +:+ "," +:+ three_digits (num mod 1000))
  ∧ (num < 0 → formatNumber num = "-" +:+ formatNumber (- num))
  ∧ (num < 0 → formatCurrency num = "$-" +:+ formatNumber (- num)).
Proof.
  intros _. split; [|split; [|split]].
  - intros Hn. rewrite <- (Z2Nat.id num) by lia.
    apply formatNumber_below_1000. lia.
  - intros Hn. unfold formatNumber.
    rewrite (Z.div_mod num 1000) at 1 by lia.
    assert (0 < num / 1000) as Hq by (Z.div_mod_to_equations; lia).
    assert (0 ≤ num mod 1000 < 1000) as Hr by (Z.div_mod_to_equations; lia).
    rewrite toString_thousands by done.
    destruct (toString_digits (num / 1000) Hq) as [Hd Hne].
    apply insert_commas_app; try done; apply is_digit_digit;
      Z.div_mod_to_equations; lia.
  - intros Hn. unfold formatNumber.
    replace num with (- (- num)) at 1 by lia.
    rewrite toString_neg by lia. apply insert_commas_minus.
  - intros Hn. unfold formatCurrency, formatNumber.
    replace num with (- (- num)) at 1 by lia.
    rewrite toString_neg by lia. by rewrite insert_commas_minus.
Qed.

(** ** Truncated hashes *)

Lemma length_append (s t : string) :
  String.length (s +:+ t) = (String.length s + String.length t)%nat.
Proof.
  induction s as [|c s IH]; [done|]. rewrite append_cons. simpl. by rewrite IH.
Qed.

(** X18. For non-negative counts, the text [truncateHash] returns is as long
    as the hash or as the two counts and the three dots together, whichever
    is less; a hash of exactly that length is returned unchanged; and
    truncating a truncated hash again, with the same counts, changes
    nothing. *)
Theorem truncateHash_idempotent (hash : string) (startChars endChars : Z) :
  0 ≤ startChars → 0 ≤ endChars →
  let short := truncateHash hash (Some startChars) (Some endChars) in
  JsString.len short = Z.min (JsString.len hash) (startChars + endChars + 3)
  ∧ (JsString.len hash = startChars + endChars + 3 → short = hash)
  ∧ truncateHash short (Some startChars) (Some endChars) = short.
Proof.
  intros Hs He short.
  assert (JsString.len short
          = Z.min (JsString.len hash) (startChars + endChars + 3)) as Hlen.
  { subst short. unfold truncateHash. simpl.
    destruct (Z.leb_spec (JsString.len hash) (startChars + endChars + 3));
      [lia|].
    rewrite JsStringFacts.substring_prefix, JsStringFacts.substring_suffix
      by (unfold JsString.len in *; lia).
    unfold JsString.len in *.
    rewrite !length_append, JsStringFacts.length_take,
      JsStringFacts.length_drop by lia.
    simpl. lia. }
  split; [done|]. split.
  - intros Heq. subst short. unfold truncateHash. simpl.
    destruct (Z.leb_spec (JsString.len hash) (startChars + endChars + 3));
      [done|lia].
  - unfold truncateHash at 1. simpl.
    destruct (Z.leb_spec (JsString.len short) (startChars + endChars + 3));
      [done|lia].
Qed.

(** ** Sequences of score updates *)

Section ScoreSequences.
Context `{NumberOps}.

Lemma scores_resetScores st :
  scores (resetScores st) = <["security" := 0]> (<["hacker" := 0]> (scores st)).
Proof. unfold resetScores. by rewrite scores_updateScoreDisplay. Qed.

Lemma score_of_known strict team st :
  Inv strict st → known_team team → scores st !! team = Some (score_of team st).
Proof.
  intros (I1 & _) Hk. apply I1 in Hk as [v Hv]. unfold score_of.
  by rewrite Hv.
Qed.

(** X19. The scores after a sequence of score calls, in every state the
    page reaches.  While the score, the amounts and the sums stay within
    2^53 in size, where the addition of JavaScript numbers is exact, two
    updates of a team add up, in either order, and an update followed by
    its opposite restores the scores.  Without any bound, a [setScore] makes
    earlier updates of the team irrelevant, updates of different teams
    commute, and [resetScores] leaves both teams at zero, as setting each to
    zero does; no call adds or removes a key of the score object. *)
Theorem score_sequences (doc : list Element) (inputs : list Input)
    (team other : string) (a b value : Z) :
  let st := run inputs (init doc) in
  let score := score_of team st in
  let exact x y := JsNumber.safe x ∧ JsNumber.safe y ∧ JsNumber.safe (x + y) in
  (exact score a → exact (score + a) b → exact a b →
     scores (updateScore team b (updateScore team a st))
     = scores (updateScore team (a + b) st))
  ∧ (exact score a → exact (score + a) b →
     exact score b → exact (score + b) a →
     scores (updateScore team b (updateScore team a st))
     = scores (updateScore team a (updateScore team b st)))
  ∧ (exact score a →
     scores (updateScore team (- a) (updateScore team a st)) = scores st)
  ∧ scores (setScore team value (updateScore team a st))
    = scores (setScore team value st)
  ∧ (other ≠ team →
     scores (updateScore other b (updateScore team a st))
     = scores (updateScore team a (updateScore other b st)))
  ∧ score_of "hacker" (resetScores st) = 0
  ∧ score_of "security" (resetScores st) = 0
  ∧ scores (resetScores st)
    = scores (setScore "security" 0 (setScore "hacker" 0 st))
  ∧ (∀ key, is_Some (scores (resetScores st) !! key)
            ↔ is_Some (scores st !! key)).
Proof.
  intros st score exact.
  assert (Inv false st) as HI by (by apply Inv_run; [|apply Inv_init]).
  assert (∀ t d, Inv false (updateScore t d st)) as HIu
    by (intros t d; by apply Inv_updateScore).
  assert (∀ t d, known_team t →
            score_of t (updateScore t d st)
            = JsNumber.add (score_of t st) d) as Hself.
  { intros t d Hk. unfold score_of at 1.
    rewrite (scores_updateScore false) by done.
    by rewrite decide_True, lookup_insert_eq by done. }
  assert (∀ t t' d, t' ≠ t →
            score_of t' (updateScore t d st) = score_of t' st) as Hother.
  { intros t t' d Hne. unfold score_of.
    rewrite (scores_updateScore false) by done.
    case_decide; [|done]. by rewrite lookup_insert_ne. }
  assert (∀ x y, exact x y → JsNumber.add x y = x + y) as Hadd
    by (intros x y (_ & _ & Hxy); by apply JsNumberFacts.add_safe).
  split; [|split; [|split; [|split; [|split; [|split; [|split; [|split]]]]]]].
  - intros H1 H2 H3. rewrite !(scores_updateScore false) by done.
    case_decide as Hk; [|done].
    rewrite Hself, insert_insert_eq by done. fold score.
    rewrite (Hadd score a), (Hadd (score + a) b) by done.
    destruct H1 as (_ & _ & H1), H2 as (_ & _ & H2).
    rewrite JsNumberFacts.add_safe; [f_equal; lia|].
    by replace (score + (a + b)) with (score + a + b) by lia.
  - intros H1 H2 H3 H4. rewrite !(scores_updateScore false) by done.
    case_decide as Hk; [|done].
    rewrite !Hself, !insert_insert_eq by done. fold score.
    rewrite (Hadd score a), (Hadd (score + a) b) by done.
    rewrite (Hadd score b), (Hadd (score + b) a) by done.
    f_equal. lia.
  - intros H1. rewrite !(scores_updateScore false) by done.
    case_decide as Hk; [|done].
    rewrite Hself, insert_insert_eq by done. fold score.
    rewrite (Hadd score a) by done. destruct H1 as (Hs & _).
    rewrite JsNumberFacts.add_safe
      by (by replace (score + a + - a) with score by lia).
    replace (score + a + - a) with score by lia.
    apply insert_id. by apply (score_of_known false).
  - rewrite !(scores_setScore false), (scores_updateScore false) by done.
    case_decide as Hk; [|done]. by rewrite insert_insert_eq.
  - intros Hne. rewrite !(scores_updateScore false) by done.
    repeat case_decide; rewrite ?Hother by done; try done.
    by apply insert_insert_ne.
  - unfold score_of. rewrite scores_resetScores.
    by rewrite lookup_insert_ne, lookup_insert_eq.
  - unfold score_of. rewrite scores_resetScores.
    by rewrite lookup_insert_eq.
  - rewrite scores_resetScores.
    assert (Inv false (setScore "hacker" 0 st)) as HIs
      by (by apply Inv_setScore).
    rewrite !(scores_setScore false) by done.
    by rewrite !decide_True by (by (left + right)).
  - intros key. rewrite scores_resetScores.
    destruct HI as (I1 & _).
    rewrite !lookup_insert. repeat case_decide; subst; try done.
    + split; [intros _|by eexists]. apply I1. by right.
    + split; [intros _|by eexists]. apply I1. by left.
Qed.

End ScoreSequences.

(** ** The display of a negative number of seconds *)


(** ** The model on the workshop page *)

Section WorkshopPage.
#[local] Existing Instance sample_ops.

Lemma init_handles_fresh doc : handles_fresh (init doc).
Proof. intros h. simpl. rewrite lookup_empty. by intros []. Defined.

Lemma highlightBug_line_witness :
  classes_of 7%nat (highlightBug "code" 3 (init workshop_page))
    = ["code-line"; "bug-highlight"]
  ∧ classes_of 5%nat (highlightBug "code" 3 (init workshop_page))
    = ["code-line"].
Proof.
  destruct (highlightBug_line (init workshop_page) "code" 4%nat 3)
    as (_ & Hin & _); [reflexivity|].
  split.
  - rewrite (Hin 7%nat ltac:(lia) eq_refl 7%nat). reflexivity.
  - rewrite (Hin 7%nat ltac:(lia) eq_refl 5%nat). reflexivity.
Defined.

Lemma clearBugHighlights_clears_witness :
  classes_of 6%nat (clearBugHighlights "code" (init workshop_page))
    = ["code-line"]
  ∧ classes_of 13%nat (clearBugHighlights "code" (init workshop_page))
    = ["code-line"; "merkle-step"; "reveal-answer"]
  ∧ clearBugHighlights "code" (highlightBug "code" 1 (init workshop_page))
    = clearBugHighlights "code" (init workshop_page).
Proof.
  destruct (clearBugHighlights_clears (init workshop_page) "code" 4%nat)
    as (Hcls & _ & _ & Hcomp); [reflexivity|].
  split; [|split].
  - rewrite (Hcls 6%nat). reflexivity.
  - rewrite (Hcls 13%nat). reflexivity.
  - apply Hcomp.
Defined.

Lemma merkle_steps_in_order_witness :
  let st := repeated 3 (animateMerkleTree "tree") (init workshop_page) in
  merkleAnimationStep st = 2%nat
  ∧ classes_of 9%nat st = ["merkle-step"; "visible"]
  ∧ classes_of 10%nat st = ["merkle-step"; "visible"]
  ∧ classes_of 13%nat st = ["code-line"; "merkle-step"; "reveal-answer"].
Proof.
  destruct (merkle_steps_in_order (init workshop_page) "tree" 8%nat 3)
    as (Hk & Hcls & _); [reflexivity|].
  split; [exact Hk|]. rewrite !Hcls. repeat split; reflexivity.
Defined.

Lemma merkle_reset_then_advance_witness :
  let shown_all := repeated 3 (animateMerkleTree "tree") (init workshop_page) in
  let st := repeated 1 (animateMerkleTree "tree")
              (resetMerkleAnimation "tree" shown_all) in
  merkleAnimationStep st = 1%nat
  ∧ ("visible" ∈ classes_of 9%nat st ↔ (0 < 1)%nat)
  ∧ ("visible" ∈ classes_of 10%nat st ↔ (1 < 1)%nat).
Proof.
  destruct (merkle_reset_then_advance
              (repeated 3 (animateMerkleTree "tree") (init workshop_page))
              "tree" 8%nat 1)
    as (_ & _ & Hk & Hvis & _); [reflexivity|].
  split; [exact Hk|]. split.
  - apply (Hvis 0%nat). reflexivity.
  - apply (Hvis 1%nat). reflexivity.
Defined.

Lemma completed_is_permanent_witness :
  "completed" ∈ classes_of 12%nat
    (run (workshop_session
          ++ [Invoke (SetCurrent "step-1"); Invoke (ResetTimer "timer" 0)])
       (init workshop_page)).
Proof.
  apply completed_is_permanent; [reflexivity|].
  apply list_elem_of_lookup. by exists 1%nat.
Defined.

Lemma score_update_only_adds_animations_witness :
  let st := init workshop_page in
  let st' := updateScore "hacker" 5 st in
  document st' = document st
  ∧ trace st' = trace st
  ∧ timerInterval st' = timerInterval st
  ∧ timerSeconds st' = timerSeconds st.
Proof.
  intros st st'.
  destruct (score_update_only_adds_animations st "hacker" 5
              (init_handles_fresh workshop_page) st' (or_introl eq_refl))
    as (_ & _ & _ & Hrest).
  exact Hrest.
Defined.

Lemma animation_cancelled_only_by_itself_witness :
  let st := run workshop_session (init workshop_page) in
  intervals (step (Invoke (ResetTimer "timer" 0)) st) !! 2%positive
    = Some (AnimateStep 2 0 5 2)
  ∧ intervals (step (Fire 1) st) !! 2%positive = Some (AnimateStep 2 0 5 2).
Proof.
  split.
  - apply (animation_cancelled_only_by_itself workshop_page workshop_session
             (Invoke (ResetTimer "timer" 0)) 2%positive 2%nat 0 5 2);
      [reflexivity|discriminate].
  - apply (animation_cancelled_only_by_itself workshop_page workshop_session
             (Fire 1) 2%positive 2%nat 0 5 2);
      [reflexivity|discriminate].
Defined.


Lemma resetTimer_restores_display_witness :
  let expired :=
    fire 1 (startTimer "timer" 1 None (init workshop_page)) in
  let st := resetTimer "timer" 90 expired in
  color_of 1%nat expired = danger_color
  ∧ animation_of 1%nat expired = pulse
  ∧ timerSeconds st = 90
  ∧ text_of 1%nat st = "1:30"
  ∧ color_of 1%nat st = EmptyString
  ∧ animation_of 1%nat st = EmptyString.
Proof.
  destruct (resetTimer_restores_display
              (fire 1 (startTimer "timer" 1 None (init workshop_page)))
              "timer" 1%nat 90)
    as (Hs & _ & Ht & Hc & Ha & _); [reflexivity|reflexivity|reflexivity|].
  split; [reflexivity|]. split; [reflexivity|]. split; [exact Hs|].
  split; [exact Ht|]. split; [exact Hc|exact Ha].
Defined.

Lemma formatNumber_groups_thousands_witness :
  formatNumber 1234567 = formatNumber 1234 +:+ "," +:+ "567"
  ∧ formatNumber 1234567 = "1,234,567"
  ∧ formatCurrency (-1234567) = "$-1,234,567".
Proof.
  destruct (formatNumber_groups_thousands 1234567) as (_ & Hbig & _);
    [reflexivity|].
  destruct (formatNumber_groups_thousands (-1234567)) as (_ & _ & _ & Hneg);
    [reflexivity|].
  split; [|split].
  - apply Hbig. lia.
  - reflexivity.
  - rewrite Hneg by lia. reflexivity.
Defined.


Lemma truncateHash_idempotent_witness :
  let short := truncateHash "0x9f86d081884c7d65" (Some 6) (Some 4) in
  JsString.len short = 13
  ∧ truncateHash short (Some 6) (Some 4) = short.
Proof.
  destruct (truncateHash_idempotent "0x9f86d081884c7d65" 6 4)
    as (Hlen & _ & Hidem); [lia|lia|].
  split; [exact Hlen|exact Hidem].
Defined.

End WorkshopPage.
